(** * mongoose-safe-query: the query-inspection core of [src/safeQuery.ts]

    A shallow embedding of the [SafeQuery] class (field extraction, metadata
    cache, index coverage, warn/throw policy with throttling) and of the
    option defaults of [src/types.ts], followed by the properties proved
    about them. *)

From Stdlib Require Import ZArith Ascii String List Bool Lia.
From Stdlib Require Import Floats.SpecFloat.
From stdpp Require Import base option list sorting gmap strings pretty.

Open Scope string_scope.
Open Scope list_scope.

(** ** JavaScript values *)

Module Js.

(** A JavaScript number is an IEEE 754 binary64 value.  [spec_float] is the
    Standard Library's specification of such values (NaN payloads, which
    JavaScript cannot observe, are collapsed). *)
Definition number : Type := spec_float.

Definition prec : Z := 53.
Definition emax : Z := 1024.

Definition NaN : number := S754_nan.
Definition zero : number := S754_zero false.

(** The number denoted by a non-negative integer such as an array length
    (exact below 2^53; array lengths are below 2^32). *)
Definition of_nat (n : nat) : number :=
  binary_normalize prec emax (Z.of_nat n) 0 false.

(** [m * 2^e], used to write the literals of the source. *)
Definition literal (m e : Z) : number := binary_normalize prec emax m e false.

(** [x / y] *)
Definition div (x y : number) : number := SFdiv prec emax x y.

(** [x >= y]: false as soon as one side is NaN. *)
Definition geb (x y : number) : bool := SFleb y x.

(** Truthiness of a number: [0], [-0] and [NaN] are falsy. *)
Definition number_truthy (x : number) : bool :=
  match x with
  | S754_zero _ | S754_nan => false
  | _ => true
  end.

(** [x || y] on numbers. *)
Definition number_or (x y : number) : number :=
  if number_truthy x then x else y.

(** [Math.max(x, y)]: NaN if either is NaN, and [+0] is larger than [-0]. *)
Definition Math_max (x y : number) : number :=
  match SFcompare x y with
  | None => NaN
  | Some Gt => x
  | Some Lt => y
  | Some Eq => match x with S754_zero true => y | _ => x end
  end.

(** Values a query filter is made of.  An object is given by its own
    enumerable string-keyed properties in [Object.entries] order. *)
#[warnings="-register-all"]
Inductive Value : Type :=
| Undefined
| Null
| Bool (b : bool)
| Number (x : number)
| Str (s : string)
| Array (elems : list Value)
| Object (entries : list (string * Value)).

(** A JavaScript string is a sequence of UTF-16 code units, compared unit
    by unit.  The model takes the strings whose code units are below 256:
    [string], a sequence of [ascii] characters, with [String.compare]. *)

(** [Array.isArray(v)] *)
Definition isArray (v : Value) : bool :=
  match v with Array _ => true | _ => false end.

(** [s.startsWith(c)] for a one-character [c]. *)
Definition startsWith (s : string) (c : ascii) : bool :=
  match s with
  | String a _ => Ascii.eqb a c
  | EmptyString => false
  end.

(** [s.split(c)[0]]: the portion of [s] before the first [c] (all of [s]
    when [c] does not occur). *)
Fixpoint split_head (s : string) (c : ascii) : string :=
  match s with
  | EmptyString => EmptyString
  | String a rest => if Ascii.eqb a c then EmptyString else String a (split_head rest c)
  end.

(** [arr.includes(x)] on an array of strings. *)
Definition includes (arr : list string) (x : string) : bool :=
  bool_decide (x ∈ arr).

(** [arr.join(sep)] on an array of strings. *)
Definition join (sep : string) (arr : list string) : string := String.concat sep arr.

(** Truthiness of a value. *)
Definition truthy (v : Value) : bool :=
  match v with
  | Undefined | Null => false
  | Bool b => b
  | Number x => number_truthy x
  | Str s => negb (String.eqb s "")
  | Array _ | Object _ => true
  end.

(** [v?.[key]] read on a value: the property of an object, [undefined] on
    anything without it (the filter values modelled here carry no other
    property of that name). *)
Definition get_optional (v : Value) (key : string) : Value :=
  match v with
  | Object entries =>
      match List.find (λ kv, String.eqb (fst kv) key) entries with
      | Some kv => snd kv
      | None => Undefined
      end
  | _ => Undefined
  end.

(** [s.slice(-n)]: the last [n] characters of [s], or [s] when it is
    shorter. *)
Definition slice_last (n : nat) (s : string) : string :=
  String.substring (String.length s - n) n s.

(** A [Set<string>] with its insertion order, which [Array.from] and
    [forEach] observe. *)
Definition OrderedSet : Type := list string.

(** [set.has(x)] *)
Definition set_has (s : OrderedSet) (x : string) : bool := bool_decide (x ∈ s).

(** [set.add(x)] *)
Definition set_add (s : OrderedSet) (x : string) : OrderedSet :=
  if set_has s x then s else s ++ [x].

(** [new Set(arr)] *)
Definition set_of_array (arr : list string) : OrderedSet :=
  fold_left set_add arr [].

End Js.

Import Js.

(** ** Constants of [safeQuery.ts] *)

Definition SUPPORTED_QUERY_SELECTORS : list string := ["$and"; "$nor"; "$or"].

Definition FIELDS_TO_IGNORE : list string := ["_bsontype"].



(** ** [types.ts] *)

Module ModelMetadata.
Record t : Type := mk {
  modelName : string;
  fields : gset string;
  indices : list (list string);
}.
End ModelMetadata.

Module ViolatingQuery.
Record t : Type := mk {
  modelName : string;
  violatingFields : list string;
  comment : Value;
  fullQuery : Value;
}.
End ViolatingQuery.

Inductive Error : Type :=
| InvalidField (message : string)
| LowIndexCoverage (message : string).

(** The ambient state a condition callback may read when it is called, such
    as [process.env]. *)
Definition Ambient : Type := gmap string string.

(** What a warning action does is kept as the line it logs. *)
Definition WarnAction : Type := ViolatingQuery.t → string.
Definition ThrowMessage : Type := ViolatingQuery.t → string.

(** An absent (or [undefined]) property is [None]. *)
Module FieldCheckHandler.
Record t : Type := mk {
  warnAction : option WarnAction;
  throwMessage : option ThrowMessage;
}.
End FieldCheckHandler.

Module IndexCheckHandler.
Record t : Type := mk {
  minCoverage : number;
  warnAction : option WarnAction;
  throwMessage : option ThrowMessage;
}.
End IndexCheckHandler.

(** [Partial<IndexCheckHandler>] *)
Module PartialIndexCheckHandler.
Record t : Type := mk {
  minCoverage : option number;
  warnAction : option WarnAction;
  throwMessage : option ThrowMessage;
}.
End PartialIndexCheckHandler.

Module FullSafeQueryOptions.
Record t : Type := mk {
  shouldWarn : Ambient → bool;
  shouldThrow : Ambient → bool;
  checkField : FieldCheckHandler.t;
  checkIndex : IndexCheckHandler.t;
}.
End FullSafeQueryOptions.

(** [Partial<FullSafeQueryOptions>] *)
Module SafeQueryOptions.
Record t : Type := mk {
  shouldWarn : option (Ambient → bool);
  shouldThrow : option (Ambient → bool);
  checkField : option FieldCheckHandler.t;
  checkIndex : option PartialIndexCheckHandler.t;
}.
End SafeQueryOptions.

Definition defaultFieldWarningHandler (query : ViolatingQuery.t) : string :=
  "Invalid query fields in " ++ ViolatingQuery.modelName query ++ ": "
    ++ join ", " (ViolatingQuery.violatingFields query).

Definition defaultIndexWarningHandler (query : ViolatingQuery.t) : string :=
  "Insufficient index coverage in " ++ ViolatingQuery.modelName query ++ ": "
    ++ join ", " (ViolatingQuery.violatingFields query).

Definition DEFAULT_OPTIONS : FullSafeQueryOptions.t := {|
  FullSafeQueryOptions.shouldWarn := λ _, true;
  FullSafeQueryOptions.shouldThrow := λ _, false;
  FullSafeQueryOptions.checkField := {|
    FieldCheckHandler.warnAction := Some defaultFieldWarningHandler;
    FieldCheckHandler.throwMessage := None;
  |};
  FullSafeQueryOptions.checkIndex := {|
    IndexCheckHandler.minCoverage := literal 1 (-1);
    IndexCheckHandler.warnAction := Some defaultIndexWarningHandler;
    IndexCheckHandler.throwMessage := None;
  |};
|}.

(** ** What the class reads from mongoose *)

(** [SchemaIndex]: the fields of an index and its options, each an object. *)
Definition SchemaIndex : Type := list (string * Value) * list (string * Value).

(** [Object.keys(o)] of an object given by its entries. *)
Definition Object_keys (entries : list (string * Value)) : list string := map fst entries.

Module Schema.
(** [tree] is the object [_.get(schema, 'tree')], [indexes] what
    [schema.indexes()] returns. *)
Record t : Type := mk {
  tree : list (string * Value);
  indexes : list SchemaIndex;
}.
End Schema.

Module Model.
Record t : Type := mk {
  modelName : string;
  schema : Schema.t;
}.
End Model.

(** The query a pre hook runs on ([this] in [checkQueryFn]). *)
Module Query.
Record t : Type := mk {
  _conditions : Value;
  model : Model.t;
  options : Value;
}.
End Query.

(** ** Observable effects *)

Inductive Check : Type := FieldCheck | IndexCheck.

Inductive Event : Type :=
| WarnActionCalled (check : Check) (query : ViolatingQuery.t) (logged : string)
| NextCalled (error : option Error)
| TypeErrorThrown.

(** ** The digest of Node's [crypto]: SHA-1, base64 encoded *)

Module Crypto.

Local Open Scope Z_scope.

Definition word (x : Z) : Z := x mod 2 ^ 32.

Definition rotl (n x : Z) : Z :=
  word (Z.lor (Z.shiftl x n) (Z.shiftr x (32 - n))).

(** UTF-8 encoding of a string whose characters are the code units 0..255. *)
Fixpoint utf8 (s : string) : list Z :=
  match s with
  | EmptyString => []
  | String a rest =>
      let c := Z.of_N (N_of_ascii a) in
      if c <? 128 then c :: utf8 rest
      else (192 + Z.shiftr c 6) :: (128 + Z.land c 63) :: utf8 rest
  end.

(** Big-endian bytes of [x], [n] of them. *)
Fixpoint be_bytes (n : nat) (x : Z) : list Z :=
  match n with
  | O => []
  | S n' => Z.land (Z.shiftr x (8 * Z.of_nat n')) 255 :: be_bytes n' x
  end.

Definition be_word (bs : list Z) : Z :=
  fold_left (λ acc b, 256 * acc + b) bs 0.

(** The message followed by the bit 1, zeros and its length in bits, a
    multiple of 64 bytes long. *)
Definition pad (msg : list Z) : list Z :=
  let len := Z.of_nat (length msg) in
  msg ++ [128] ++ repeat 0 (Z.to_nat ((55 - len) mod 64)) ++ be_bytes 8 (8 * len).

Fixpoint chunks (fuel : nat) (size : nat) (l : list Z) : list (list Z) :=
  match fuel, l with
  | S fuel', _ :: _ => take size l :: chunks fuel' size (drop size l)
  | _, _ => []
  end.

(** The 80-word schedule of one block, most recent word first while it is
    being extended. *)
Fixpoint extend (n : nat) (rev_w : list Z) : list Z :=
  match n with
  | O => rev_w
  | S n' =>
      let at_ i := nth i rev_w 0 in
      let w := Z.lxor (Z.lxor (Z.lxor (at_ 2%nat) (at_ 7%nat)) (at_ 13%nat)) (at_ 15%nat) in
      extend n' (rotl 1 w :: rev_w)
  end.

Definition schedule (block : list Z) : list Z :=
  rev (extend 64 (rev (map be_word (chunks 16 4 block)))).

Definition state : Type := Z * Z * Z * Z * Z.

Definition round (t : nat) (w : Z) (s : state) : state :=
  let '(a, b, c, d, e) := s in
  let '(f, k) :=
    if (t <? 20)%nat then (Z.lor (Z.land b c) (Z.land (Z.lxor b 4294967295) d), 1518500249)
    else if (t <? 40)%nat then (Z.lxor (Z.lxor b c) d, 1859775393)
    else if (t <? 60)%nat then (Z.lor (Z.lor (Z.land b c) (Z.land b d)) (Z.land c d), 2400959708)
    else (Z.lxor (Z.lxor b c) d, 3395469782) in
  (word (rotl 5 a + f + e + k + w), a, rotl 30 b, c, d).

Fixpoint rounds (t : nat) (ws : list Z) (s : state) : state :=
  match ws with
  | [] => s
  | w :: ws' => rounds (S t) ws' (round t w s)
  end.

Definition compress (s : state) (block : list Z) : state :=
  let '(h0, h1, h2, h3, h4) := s in
  let '(a, b, c, d, e) := rounds 0 (schedule block) s in
  (word (h0 + a), word (h1 + b), word (h2 + c), word (h3 + d), word (h4 + e)).

Definition initial : state := (1732584193, 4023233417, 2562383102, 271733878, 3285377520).

(** The 20 bytes of the SHA-1 digest of a byte sequence. *)
Definition sha1 (msg : list Z) : list Z :=
  let padded := pad msg in
  let '(h0, h1, h2, h3, h4) := fold_left compress (chunks (length padded) 64 padded) initial in
  be_bytes 4 h0 ++ be_bytes 4 h1 ++ be_bytes 4 h2 ++ be_bytes 4 h3 ++ be_bytes 4 h4.

Definition alphabet : string :=
  "ABCDEFGHIJKLMNOPQRSTUVWXYZabcdefghijklmnopqrstuvwxyz0123456789+/".

Definition sextet (x : Z) : ascii :=
  match String.get (Z.to_nat (Z.land x 63)) alphabet with
  | Some a => a
  | None => "="%char
  end.

(** Base64 with padding. *)
Fixpoint base64 (bs : list Z) : string :=
  match bs with
  | [] => EmptyString
  | [b0] =>
      String (sextet (Z.shiftr b0 2)) (String (sextet (Z.shiftl b0 4)) "==")
  | [b0; b1] =>
      String (sextet (Z.shiftr b0 2))
        (String (sextet (Z.lor (Z.shiftl b0 4) (Z.shiftr b1 4)))
           (String (sextet (Z.shiftl b1 2)) "="))
  | b0 :: b1 :: b2 :: rest =>
      String (sextet (Z.shiftr b0 2))
        (String (sextet (Z.lor (Z.shiftl b0 4) (Z.shiftr b1 4)))
           (String (sextet (Z.lor (Z.shiftl b1 2) (Z.shiftr b2 6)))
              (String (sextet b2) (base64 rest))))
  end.

(** [crypto.createHash('sha1').update(s).digest('base64')] *)
Definition sha1_base64 (s : string) : string := base64 (sha1 (utf8 s)).

End Crypto.

(** ** The class [SafeQuery] *)

Module SafeQuery.

Record t : Type := mk {
  modelMetadataMap : gmap string ModelMetadata.t;
  warnedFieldQueries : gset string;
  warnedIndexQueries : gset string;
  options : FullSafeQueryOptions.t;
}.

(** A method runs on the instance, may replace its members and calls
    callbacks: a state monad on [t] that logs the calls. *)
Definition M (A : Type) : Type := t → A * t * list Event.

Definition run {A : Type} (m : M A) (this : t) : A * t * list Event := m this.

#[export] Instance M_ret : MRet M := λ A x this, (x, this, []).

#[export] Instance M_bind : MBind M := λ A B f m this,
  let '(x, this', evs) := m this in
  let '(y, this'', evs') := f x this' in
  (y, this'', evs ++ evs').

Definition get : M t := λ this, (this, this, []).

Definition modify (f : t → t) : M unit := λ this, (tt, f this, []).

Definition emit (e : Event) : M unit := λ this, (tt, this, [e]).

(** The instance after a method, and the calls it made. *)
Definition exec {A : Type} (m : M A) (this : t) : t := (run m this).1.2.
Definition events {A : Type} (m : M A) (this : t) : list Event := (run m this).2.
Definition result {A : Type} (m : M A) (this : t) : A := (run m this).1.1.

(** *** [getRootQueryFields] *)

(** The keys of [Object.entries] applied to an array or a string of the given
    length: the decimal indices. *)
Definition index_keys (len : nat) : list string := map pretty (seq 0 len).

(** The [for (const subConditions of expression)] loop: every sub-filter is
    extracted by [rec] and its fields are added to [queryFields].  [None] is
    a [TypeError] raised on the way. *)
Definition scanSubConditions (rec : Value → option (list string)) :
    list Value → OrderedSet → option OrderedSet :=
  fix loop (expression : list Value) (queryFields : OrderedSet) :=
    match expression with
    | [] => Some queryFields
    | subConditions :: rest =>
        match rec subConditions with
        | None => None
        | Some fs => loop rest (fold_left set_add fs queryFields)
        end
    end.

(** The [for (const [fieldOrOperator, expression] of Object.entries(...))]
    loop over the entries of an object. *)
Definition scanEntries (rec : Value → option (list string)) :
    list (string * Value) → OrderedSet → option OrderedSet :=
  fix loop (entries : list (string * Value)) (queryFields : OrderedSet) :=
    match entries with
    | [] => Some queryFields
    | (fieldOrOperator, expression) :: rest =>
        if includes FIELDS_TO_IGNORE fieldOrOperator then loop rest queryFields
        else if includes SUPPORTED_QUERY_SELECTORS fieldOrOperator && isArray expression then
          match expression with
          | Array subs =>
              match scanSubConditions rec subs queryFields with
              | None => None
              | Some queryFields' => loop rest queryFields'
              end
          | _ => loop rest queryFields (* not reached: [expression] is an array *)
          end
        else if negb (startsWith fieldOrOperator "$") then
          loop rest (set_add queryFields (split_head fieldOrOperator "."))
        else loop rest queryFields
    end.

(** [getRootQueryFields(queryConditions)].  [Object.entries] raises a
    [TypeError] on [undefined] and [null], is empty on booleans and numbers,
    and enumerates the indices of a string or an array: index keys are never
    selectors, so each index is taken as a field name. *)
Fixpoint getRootQueryFields (queryConditions : Value) : option (list string) :=
  match queryConditions with
  | Undefined | Null => None
  | Bool _ | Number _ => Some []
  | Str s => Some (index_keys (String.length s))
  | Array elems => Some (index_keys (length elems))
  | Object entries => scanEntries getRootQueryFields entries []
  end.

(** *** [getNonExistingFields] *)

(** Return query fields that does not exist in model fields. *)
Definition getNonExistingFields (queryFields : list string) (modelFields : gset string) :
    list string :=
  List.filter (λ f, negb (bool_decide (f ∈ modelFields))) queryFields.

(** *** [isCoveredByIndex] *)

(** The inner [for (const indexField of index)] loop, with its [break]. *)
Fixpoint coveredFields (queryFieldSet : OrderedSet) (index : list string)
    (coveredFieldCount : nat) : nat :=
  match index with
  | [] => coveredFieldCount
  | indexField :: rest =>
      let indexFieldPrefix := split_head indexField "." in
      if set_has queryFieldSet indexFieldPrefix
      then coveredFields queryFieldSet rest (coveredFieldCount + 1)
      else coveredFieldCount
  end.

(** The test made on one index once its fields have been walked. *)
Definition meetsCoverage (coveredFieldCount totalFieldCount : nat) (minCoverage : number) :
    bool :=
  geb (div (of_nat coveredFieldCount) (of_nat totalFieldCount)) minCoverage.

Definition isCoveredByIndex (queryFields : list string) (indices : list (list string))
    (minCoverage : number) : bool :=
  let totalFieldCount := length queryFields in
  let queryFieldSet := set_of_array queryFields in
  (fix loop (indices : list (list string)) : bool :=
     match indices with
     | [] => false
     | index :: rest =>
         let coveredFieldCount := coveredFields queryFieldSet index 0 in
         if meetsCoverage coveredFieldCount totalFieldCount minCoverage then true
         else loop rest
     end) indices.

(** *** [hash] *)

(** [_.sortBy(arr)] on strings: ascending in the order of [<] on strings,
    which compares code units.  A stable sort by a total order that
    distinguishes distinct strings has one possible result. *)
Definition sortBy (arr : list string) : list string := merge_sort String.le arr.

Definition hash (queryFields : list string) : string :=
  let sortedFields := sortBy queryFields in
  Crypto.sha1_base64 (join "" sortedFields).

(** *** The constructor *)

(** The first of two optional properties that is defined. *)
Definition or_else {A : Type} (x y : option A) : option A :=
  match x with
  | Some _ => x
  | None => y
  end.

(** A full options object passed where a partial one is expected. *)
Definition as_partial (o : FullSafeQueryOptions.t) : SafeQueryOptions.t := {|
  SafeQueryOptions.shouldWarn := Some (FullSafeQueryOptions.shouldWarn o);
  SafeQueryOptions.shouldThrow := Some (FullSafeQueryOptions.shouldThrow o);
  SafeQueryOptions.checkField := Some (FullSafeQueryOptions.checkField o);
  SafeQueryOptions.checkIndex := Some {|
    PartialIndexCheckHandler.minCoverage :=
      Some (IndexCheckHandler.minCoverage (FullSafeQueryOptions.checkIndex o));
    PartialIndexCheckHandler.warnAction :=
      IndexCheckHandler.warnAction (FullSafeQueryOptions.checkIndex o);
    PartialIndexCheckHandler.throwMessage :=
      IndexCheckHandler.throwMessage (FullSafeQueryOptions.checkIndex o);
  |};
|}.

(** [_.defaultsDeep({}, options, defaults)]: every property that is
    undefined in [options] is taken from [defaults], the two handler objects
    property by property. *)
Definition defaultsDeep (options : SafeQueryOptions.t) (defaults : FullSafeQueryOptions.t) :
    FullSafeQueryOptions.t :=
  let defaultField := FullSafeQueryOptions.checkField defaults in
  let defaultIndex := FullSafeQueryOptions.checkIndex defaults in
  {|
    FullSafeQueryOptions.shouldWarn :=
      default (FullSafeQueryOptions.shouldWarn defaults) (SafeQueryOptions.shouldWarn options);
    FullSafeQueryOptions.shouldThrow :=
      default (FullSafeQueryOptions.shouldThrow defaults) (SafeQueryOptions.shouldThrow options);
    FullSafeQueryOptions.checkField :=
      match SafeQueryOptions.checkField options with
      | None => defaultField
      | Some h => {|
          FieldCheckHandler.warnAction :=
            or_else (FieldCheckHandler.warnAction h) (FieldCheckHandler.warnAction defaultField);
          FieldCheckHandler.throwMessage :=
            or_else (FieldCheckHandler.throwMessage h)
              (FieldCheckHandler.throwMessage defaultField);
        |}
      end;
    FullSafeQueryOptions.checkIndex :=
      match SafeQueryOptions.checkIndex options with
      | None => defaultIndex
      | Some h => {|
          IndexCheckHandler.minCoverage :=
            default (IndexCheckHandler.minCoverage defaultIndex)
              (PartialIndexCheckHandler.minCoverage h);
          IndexCheckHandler.warnAction :=
            or_else (PartialIndexCheckHandler.warnAction h)
              (IndexCheckHandler.warnAction defaultIndex);
          IndexCheckHandler.throwMessage :=
            or_else (PartialIndexCheckHandler.throwMessage h)
              (IndexCheckHandler.throwMessage defaultIndex);
        |}
      end;
  |}.

(** [new SafeQuery(options)]; [None] is the call without an argument. *)
Definition new (options : option SafeQueryOptions.t) : t :=
  let options := default (as_partial DEFAULT_OPTIONS) options in
  {|
    modelMetadataMap := ∅;
    warnedFieldQueries := ∅;
    warnedIndexQueries := ∅;
    options := defaultsDeep options DEFAULT_OPTIONS;
  |}.

(** *** [getMetadata] *)

Definition getMetadata (model : Model.t) : M ModelMetadata.t :=
  let modelName := Model.modelName model in
  this ← get;
  match modelMetadataMap this !! modelName with
  | Some existingMetadata => mret existingMetadata
  | None =>
      let schema := Model.schema model in
      let schemaIndexes := Schema.indexes schema in
      let newMetadata := {|
        ModelMetadata.modelName := modelName;
        ModelMetadata.fields := list_to_set (Object_keys (Schema.tree schema));
        ModelMetadata.indices :=
          map (λ a : SchemaIndex, Object_keys (fst a)) schemaIndexes ++ [["_id"]];
      |} in
      modify (λ this, {|
        modelMetadataMap := <[modelName := newMetadata]> (modelMetadataMap this);
        warnedFieldQueries := warnedFieldQueries this;
        warnedIndexQueries := warnedIndexQueries this;
        options := options this;
      |});;
      mret newMetadata
  end.

(** *** Conditions and handlers *)

Definition shouldWarn (env : Ambient) (this : t) : bool :=
  FullSafeQueryOptions.shouldWarn (options this) env.

Definition shouldThrow (env : Ambient) (this : t) : bool :=
  FullSafeQueryOptions.shouldThrow (options this) env.

(** The argument of [setWarnCondition] and [setThrowCondition]:
    [boolean | (() => boolean)]. *)
Inductive Condition : Type :=
| Constant (b : bool)
| Callback (f : Ambient → bool).

Definition condition_fn (c : Condition) : Ambient → bool :=
  match c with
  | Constant b => λ _, b
  | Callback f => f
  end.

Definition with_options (this : t) (o : FullSafeQueryOptions.t) : t := {|
  modelMetadataMap := modelMetadataMap this;
  warnedFieldQueries := warnedFieldQueries this;
  warnedIndexQueries := warnedIndexQueries this;
  options := o;
|}.

Definition setWarnCondition (warnCondition : Condition) (this : t) : t :=
  with_options this {|
    FullSafeQueryOptions.shouldWarn := condition_fn warnCondition;
    FullSafeQueryOptions.shouldThrow := FullSafeQueryOptions.shouldThrow (options this);
    FullSafeQueryOptions.checkField := FullSafeQueryOptions.checkField (options this);
    FullSafeQueryOptions.checkIndex := FullSafeQueryOptions.checkIndex (options this);
  |}.

Definition setThrowCondition (throwCondition : Condition) (this : t) : t :=
  with_options this {|
    FullSafeQueryOptions.shouldWarn := FullSafeQueryOptions.shouldWarn (options this);
    FullSafeQueryOptions.shouldThrow := condition_fn throwCondition;
    FullSafeQueryOptions.checkField := FullSafeQueryOptions.checkField (options this);
    FullSafeQueryOptions.checkIndex := FullSafeQueryOptions.checkIndex (options this);
  |}.

(** [_.defaults(fieldCheckHandler, this.options.checkField)] *)
Definition setFieldCheckHandler (fieldCheckHandler : FieldCheckHandler.t) (this : t) : t :=
  let current := FullSafeQueryOptions.checkField (options this) in
  with_options this {|
    FullSafeQueryOptions.shouldWarn := FullSafeQueryOptions.shouldWarn (options this);
    FullSafeQueryOptions.shouldThrow := FullSafeQueryOptions.shouldThrow (options this);
    FullSafeQueryOptions.checkField := {|
      FieldCheckHandler.warnAction :=
        or_else (FieldCheckHandler.warnAction fieldCheckHandler)
          (FieldCheckHandler.warnAction current);
      FieldCheckHandler.throwMessage :=
        or_else (FieldCheckHandler.throwMessage fieldCheckHandler)
          (FieldCheckHandler.throwMessage current);
    |};
    FullSafeQueryOptions.checkIndex := FullSafeQueryOptions.checkIndex (options this);
  |}.

(** [_.defaults(indexCheckHandler, this.options.checkIndex)] *)
Definition setIndexCheckHandler (indexCheckHandler : PartialIndexCheckHandler.t) (this : t) : t :=
  let current := FullSafeQueryOptions.checkIndex (options this) in
  with_options this {|
    FullSafeQueryOptions.shouldWarn := FullSafeQueryOptions.shouldWarn (options this);
    FullSafeQueryOptions.shouldThrow := FullSafeQueryOptions.shouldThrow (options this);
    FullSafeQueryOptions.checkField := FullSafeQueryOptions.checkField (options this);
    FullSafeQueryOptions.checkIndex := {|
      IndexCheckHandler.minCoverage :=
        default (IndexCheckHandler.minCoverage current)
          (PartialIndexCheckHandler.minCoverage indexCheckHandler);
      IndexCheckHandler.warnAction :=
        or_else (PartialIndexCheckHandler.warnAction indexCheckHandler)
          (IndexCheckHandler.warnAction current);
      IndexCheckHandler.throwMessage :=
        or_else (PartialIndexCheckHandler.throwMessage indexCheckHandler)
          (IndexCheckHandler.throwMessage current);
    |};
  |}.

Definition clearWarnedFieldQueries (this : t) : t := {|
  modelMetadataMap := modelMetadataMap this;
  warnedFieldQueries := ∅;
  warnedIndexQueries := warnedIndexQueries this;
  options := options this;
|}.

Definition clearWarnedIndexQueries (this : t) : t := {|
  modelMetadataMap := modelMetadataMap this;
  warnedFieldQueries := warnedFieldQueries this;
  warnedIndexQueries := ∅;
  options := options this;
|}.

(** [this.warnedFieldQueries.add(hash)] and [this.warnedIndexQueries.add(hash)] *)
Definition addWarnedFieldQuery (hash : string) (this : t) : t := {|
  modelMetadataMap := modelMetadataMap this;
  warnedFieldQueries := {[hash]} ∪ warnedFieldQueries this;
  warnedIndexQueries := warnedIndexQueries this;
  options := options this;
|}.

Definition addWarnedIndexQuery (hash : string) (this : t) : t := {|
  modelMetadataMap := modelMetadataMap this;
  warnedFieldQueries := warnedFieldQueries this;
  warnedIndexQueries := {[hash]} ∪ warnedIndexQueries this;
  options := options this;
|}.

(** *** [checkField] and [checkIndex] *)

(** [next(error)] *)
Definition next (error : option Error) : M unit := emit (NextCalled error).

(** [condition && callback]: the callback when the condition holds and the
    callback is defined. *)
Definition guarded {A : Type} (condition : bool) (callback : option A) : option A :=
  if condition then callback else None.

Definition checkField (env : Ambient) (modelMetadata : ModelMetadata.t)
    (queryConditions : Value) (queryFields : list string) (queryOptions : Value) : M unit :=
  let violatingFields := getNonExistingFields queryFields (ModelMetadata.fields modelMetadata) in
  if (length violatingFields =? 0)%nat then mret tt
  else
    let violatingQuery := {|
      ViolatingQuery.modelName := ModelMetadata.modelName modelMetadata;
      ViolatingQuery.violatingFields := violatingFields;
      ViolatingQuery.comment := get_optional queryOptions "comment";
      ViolatingQuery.fullQuery := queryConditions;
    |} in
    this ← get;
    let handler := FullSafeQueryOptions.checkField (options this) in
    match guarded (shouldThrow env this) (FieldCheckHandler.throwMessage handler) with
    | Some throwMessage =>
        let message := throwMessage violatingQuery in
        next (Some (InvalidField message))
    | None =>
        match guarded (shouldWarn env this) (FieldCheckHandler.warnAction handler) with
        | Some warnAction =>
            let hash := slice_last 5 (hash queryFields) in
            let newQuery := negb (bool_decide (hash ∈ warnedFieldQueries this)) in
            if newQuery then
              emit (WarnActionCalled FieldCheck violatingQuery (warnAction violatingQuery));;
              modify (addWarnedFieldQuery hash)
            else mret tt
        | None => mret tt
        end
    end.

(** The guard that opens [checkIndex]:
    [modelMetadata.indices.length === 0 || queryFields.length === 0]. *)
Definition nothingToCover (modelMetadata : ModelMetadata.t) (queryFields : list string) : bool :=
  (length (ModelMetadata.indices modelMetadata) =? 0)%nat || (length queryFields =? 0)%nat.

Definition checkIndex (env : Ambient) (modelMetadata : ModelMetadata.t)
    (queryConditions : Value) (queryFields : list string) (queryOptions : Value) : M unit :=
  if nothingToCover modelMetadata queryFields then mret tt
  else
    this ← get;
    let handler := FullSafeQueryOptions.checkIndex (options this) in
    let minCoverage := Math_max (number_or (IndexCheckHandler.minCoverage handler) zero) zero in
    if isCoveredByIndex queryFields (ModelMetadata.indices modelMetadata) minCoverage
    then mret tt
    else
      let violatingQuery := {|
        ViolatingQuery.modelName := ModelMetadata.modelName modelMetadata;
        ViolatingQuery.violatingFields := queryFields;
        ViolatingQuery.comment := get_optional queryOptions "comment";
        ViolatingQuery.fullQuery := queryConditions;
      |} in
      match guarded (shouldThrow env this) (IndexCheckHandler.throwMessage handler) with
      | Some throwMessage =>
          let message := throwMessage violatingQuery in
          next (Some (LowIndexCoverage message))
      | None =>
          match guarded (shouldWarn env this) (IndexCheckHandler.warnAction handler) with
          | Some warnAction =>
              let hash := slice_last 5 (hash queryFields) in
              let newQuery := negb (bool_decide (hash ∈ warnedIndexQueries this)) in
              if newQuery then
                emit (WarnActionCalled IndexCheck violatingQuery (warnAction violatingQuery));;
                modify (addWarnedIndexQuery hash)
              else mret tt
          | None => mret tt
          end
      end.

(** *** The pre hook registered by [getPlugin] *)

(** [checkQueryFn] run on a query.  The two handler objects of the options
    are objects, hence truthy: both checks run. *)
Definition checkQueryFn (env : Ambient) (query : Query.t) : M unit :=
  let queryConditions := Query._conditions query in
  if negb (truthy queryConditions) then next None
  else
    match getRootQueryFields queryConditions with
    | None => emit TypeErrorThrown
    | Some queryFields =>
        if (length queryFields =? 0)%nat then next None
        else
          let model := Query.model query in
          modelMetadata ← getMetadata model;
          let queryOptions := Query.options query in
          checkField env modelMetadata queryConditions queryFields queryOptions;;
          checkIndex env modelMetadata queryConditions queryFields queryOptions;;
          next None
    end.

(** *** [getPlugin] *)

(** The options object of a call of [schema.pre]. *)
Module PreOptions.
Record t : Type := mk {
  query : bool;
  document : bool;
}.
End PreOptions.



(** *** The instances a program can reach *)

(** What a program does with an instance: the public setters, and queries
    that run the pre hook. *)
Inductive Op : Type :=
| SetWarnCondition (warnCondition : Condition)
| SetThrowCondition (throwCondition : Condition)
| SetFieldCheckHandler (fieldCheckHandler : FieldCheckHandler.t)
| SetIndexCheckHandler (indexCheckHandler : PartialIndexCheckHandler.t)
| ClearWarnedFieldQueries
| ClearWarnedIndexQueries
| RunQuery (env : Ambient) (query : Query.t).

Definition apply (this : t) (op : Op) : t :=
  match op with
  | SetWarnCondition c => setWarnCondition c this
  | SetThrowCondition c => setThrowCondition c this
  | SetFieldCheckHandler h => setFieldCheckHandler h this
  | SetIndexCheckHandler h => setIndexCheckHandler h this
  | ClearWarnedFieldQueries => clearWarnedFieldQueries this
  | ClearWarnedIndexQueries => clearWarnedIndexQueries this
  | RunQuery env query => exec (checkQueryFn env query) this
  end.

(** The instance made by [new SafeQuery(options)] after the operations
    [ops]. *)
Definition after (options : option SafeQueryOptions.t) (ops : list Op) : t :=
  fold_left apply ops (new options).

End SafeQuery.

Import SafeQuery.

(** * Specification

    The notions the claims are worded in, and names for the parts of the
    class they speak about. *)

(** ** Index coverage *)

(** The covered count of the claim: the index fields are walked in declared
    order, [n] of them are counted, each with its top-level name among the
    query fields, and the walk stopped at the first one that is not. *)
Definition prefixCount (queryFields index : list string) (n : nat) : Prop :=
  (n ≤ length index)%nat
  ∧ (∀ i f, (i < n)%nat → index !! i = Some f → split_head f "." ∈ queryFields)
  ∧ (∀ f, index !! n = Some f → split_head f "." ∉ queryFields).

(** ** Field extraction *)

(** The filters of the claim: objects in which the value of every supported
    combinator is a sequence of such filters.  Every other key may carry any
    value. *)
Fixpoint is_filter (v : Value) : bool :=
  match v with
  | Object entries =>
      forallb (λ kv : string * Value,
                 if includes SUPPORTED_QUERY_SELECTORS (fst kv) then
                   match snd kv with
                   | Array subs => forallb is_filter subs
                   | _ => false
                   end
                 else true) entries
  | _ => false
  end.

(** [name] is the first segment of the path [key]: it holds no ['.'], and
    [key] is [name] or continues with a ['.'] after it. *)
Definition topLevelName (key name : string) : Prop :=
  (∀ before after, name ≠ before +:+ String "." after)
  ∧ (key = name ∨ ∃ rest, key = name +:+ String "." rest).

(** The top-level field names reachable in a filter by un-nesting the
    supported combinators: the first segment of a plain field key, and the
    names reachable in a sub-filter of a combinator. *)
Inductive reachableField : Value → string → Prop :=
| reach_field entries key expression name :
    (key, expression) ∈ entries →
    key ∉ FIELDS_TO_IGNORE →
    startsWith key "$" = false →
    topLevelName key name →
    reachableField (Object entries) name
| reach_combinator entries key subs sub name :
    (key, Array subs) ∈ entries →
    key ∈ SUPPORTED_QUERY_SELECTORS →
    sub ∈ subs →
    reachableField sub name →
    reachableField (Object entries) name.

(** What one entry of an object contributes to the reachable names. *)
Definition entryFields (key : string) (expression : Value) (name : string) : Prop :=
  ((key ∉ FIELDS_TO_IGNORE) ∧ startsWith key "$" = false ∧ topLevelName key name)
  ∨ (key ∈ SUPPORTED_QUERY_SELECTORS
     ∧ ∃ subs sub, expression = Array subs ∧ sub ∈ subs ∧ reachableField sub name).

(** The extractor is right on a value: it returns the reachable names, each
    once. *)
Definition extracts (v : Value) : Prop :=
  ∃ fields, getRootQueryFields v = Some fields
    ∧ NoDup fields ∧ ∀ name, name ∈ fields ↔ reachableField v name.

(** ** The two checks, read side by side *)

(** [checkField] and [checkIndex] differ in what they call a violation, in
    the handler they read, in the failure they signal and in the throttle
    set they use.  The definitions below name these parts for either check,
    so that the properties of both are stated once. *)

Definition check (c : Check) :
    Ambient → ModelMetadata.t → Value → list string → Value → M unit :=
  match c with
  | FieldCheck => checkField
  | IndexCheck => checkIndex
  end.

(** The minimum coverage [checkIndex] passes to [isCoveredByIndex]. *)
Definition coverageThreshold (this : t) : number :=
  Math_max
    (number_or (IndexCheckHandler.minCoverage (FullSafeQueryOptions.checkIndex (options this)))
       zero)
    zero.

(** The invocation finds a violation: it gets past the returns that precede
    the construction of the violating query. *)
Definition violates (c : Check) (this : t) (modelMetadata : ModelMetadata.t)
    (queryFields : list string) : bool :=
  match c with
  | FieldCheck =>
      negb (length (getNonExistingFields queryFields (ModelMetadata.fields modelMetadata))
            =? 0)%nat
  | IndexCheck =>
      negb (nothingToCover modelMetadata queryFields)
      && negb (isCoveredByIndex queryFields (ModelMetadata.indices modelMetadata)
                 (coverageThreshold this))
  end.

Definition violatingQuery (c : Check) (modelMetadata : ModelMetadata.t)
    (queryConditions : Value) (queryFields : list string) (queryOptions : Value) :
    ViolatingQuery.t :=
  {|
    ViolatingQuery.modelName := ModelMetadata.modelName modelMetadata;
    ViolatingQuery.violatingFields :=
      match c with
      | FieldCheck => getNonExistingFields queryFields (ModelMetadata.fields modelMetadata)
      | IndexCheck => queryFields
      end;
    ViolatingQuery.comment := get_optional queryOptions "comment";
    ViolatingQuery.fullQuery := queryConditions;
  |}.

Definition throwMessageOf (c : Check) (this : t) : option ThrowMessage :=
  match c with
  | FieldCheck => FieldCheckHandler.throwMessage (FullSafeQueryOptions.checkField (options this))
  | IndexCheck => IndexCheckHandler.throwMessage (FullSafeQueryOptions.checkIndex (options this))
  end.

Definition warnActionOf (c : Check) (this : t) : option WarnAction :=
  match c with
  | FieldCheck => FieldCheckHandler.warnAction (FullSafeQueryOptions.checkField (options this))
  | IndexCheck => IndexCheckHandler.warnAction (FullSafeQueryOptions.checkIndex (options this))
  end.

Definition failure (c : Check) (message : string) : Error :=
  match c with
  | FieldCheck => InvalidField message
  | IndexCheck => LowIndexCoverage message
  end.

Definition warned (c : Check) (this : t) : gset string :=
  match c with
  | FieldCheck => warnedFieldQueries this
  | IndexCheck => warnedIndexQueries this
  end.

Definition addWarned (c : Check) (digest : string) (this : t) : t :=
  match c with
  | FieldCheck => addWarnedFieldQuery digest this
  | IndexCheck => addWarnedIndexQuery digest this
  end.

Definition clearWarned (c : Check) (this : t) : t :=
  match c with
  | FieldCheck => clearWarnedFieldQueries this
  | IndexCheck => clearWarnedIndexQueries this
  end.

(** The throttle digest: [SafeQuery.hash(queryFields).slice(-5)]. *)
Definition throttleDigest (queryFields : list string) : string :=
  slice_last 5 (hash queryFields).

(** The warn branch of a check, from its [if (shouldWarn() && warnAction)]
    on. *)
Definition warnBranch (c : Check) (env : Ambient) (modelMetadata : ModelMetadata.t)
    (queryConditions : Value) (queryFields : list string) (queryOptions : Value)
    (this : t) : unit * t * list Event :=
  let query := violatingQuery c modelMetadata queryConditions queryFields queryOptions in
  match guarded (shouldWarn env this) (warnActionOf c this) with
  | Some warnAction =>
      if bool_decide (throttleDigest queryFields ∈ warned c this) then (tt, this, [])
      else (tt, addWarned c (throttleDigest queryFields) this,
            [WarnActionCalled c query (warnAction query)])
  | None => (tt, this, [])
  end.

(** The number of calls of a notify callback among the events. *)
Definition notifications (evs : list Event) : nat :=
  length (List.filter (λ e, match e with WarnActionCalled _ _ _ => true | _ => false end) evs).

(** The failures signalled through [next] among the events. *)
Definition failures (evs : list Event) : list Error :=
  omap (λ e, match e with NextCalled (Some error) => Some error | _ => None end) evs.

(** ** The metadata cache *)

(** The entry [getMetadata] computes for a model that is not in the cache. *)
Definition newMetadata (model : Model.t) : ModelMetadata.t := {|
  ModelMetadata.modelName := Model.modelName model;
  ModelMetadata.fields := list_to_set (Object_keys (Schema.tree (Model.schema model)));
  ModelMetadata.indices :=
    map (λ a : SchemaIndex, Object_keys (fst a)) (Schema.indexes (Model.schema model))
      ++ [["_id"]];
|}.

(** The instance with one more entry in its cache. *)
Definition withMetadata (modelName : string) (metadata : ModelMetadata.t) (this : t) : t := {|
  modelMetadataMap := <[modelName := metadata]> (modelMetadataMap this);
  warnedFieldQueries := warnedFieldQueries this;
  warnedIndexQueries := warnedIndexQueries this;
  options := options this;
|}.

(** Every cached entry ends with the index on [_id]. *)
Definition cacheEndsWithId (this : t) : Prop :=
  ∀ modelName metadata,
    modelMetadataMap this !! modelName = Some metadata →
    last (ModelMetadata.indices metadata) = Some ["_id"].


(** ** Further notions *)

(** The values on which the extractor raises a [TypeError]: [undefined],
    [null], and an object that holds such a value in the sequence of a
    supported combinator, at any depth. *)
Inductive raisesTypeError : Value → Prop :=
| raises_undefined : raisesTypeError Undefined
| raises_null : raisesTypeError Null
| raises_combinator entries key subs sub :
    (key, Array subs) ∈ entries →
    key ∈ SUPPORTED_QUERY_SELECTORS →
    sub ∈ subs →
    raisesTypeError sub →
    raisesTypeError (Object entries).

(** The field names of a filter in the order the filter is written, each
    one as often as it occurs. *)
Fixpoint fieldOccurrences (v : Value) : list string :=
  match v with
  | Object entries =>
      List.flat_map
        (λ kv : string * Value,
           if includes FIELDS_TO_IGNORE (fst kv) then []
           else if includes SUPPORTED_QUERY_SELECTORS (fst kv) then
             match snd kv with
             | Array subs => List.flat_map fieldOccurrences subs
             | _ => []
             end
           else if startsWith (fst kv) "$" then []
           else [split_head (fst kv) "."])
        entries
  | _ => []
  end.

(** What [fieldOccurrences] lists for one entry. *)
Definition entryOccurrences (kv : string * Value) : list string :=
  if includes FIELDS_TO_IGNORE (fst kv) then []
  else if includes SUPPORTED_QUERY_SELECTORS (fst kv) then
    match snd kv with
    | Array subs => List.flat_map fieldOccurrences subs
    | _ => []
    end
  else if startsWith (fst kv) "$" then []
  else [split_head (fst kv) "."].

(** A number that [checkIndex] keeps as the minimum coverage: positive,
    infinite or not. *)
Definition isPositive (x : number) : bool :=
  match x with
  | S754_finite false _ _ | S754_infinity false => true
  | _ => false
  end.

(** The setters among the operations. *)
Definition is_setter (op : Op) : bool :=
  match op with
  | SetWarnCondition _ | SetThrowCondition _
  | SetFieldCheckHandler _ | SetIndexCheckHandler _ => true
  | _ => false
  end.




(** Every entry of the cache is stored under its model name and was
    computed from a model of that name. *)
Definition cacheOfModels (this : t) : Prop :=
  ∀ name metadata,
    modelMetadataMap this !! name = Some metadata →
    ∃ model, Model.modelName model = name ∧ metadata = newMetadata model.

(** Every digest of the throttle sets is the 5-character digest of some
    field list. *)
Definition digestsWellFormed (this : t) : Prop :=
  ∀ c digest,
    digest ∈ warned c this →
    String.length digest = 5%nat ∧ ∃ queryFields, digest = throttleDigest queryFields.

(** A number that is zero or above: [+0], a positive number or
    [+Infinity]. *)
Definition nonNegative (x : number) : bool :=
  match x with
  | S754_zero false | S754_finite false _ _ | S754_infinity false => true
  | _ => false
  end.

(** ** Concrete instances *)

Definition sampleFilter : Value :=
  Object [
    ("$or", Array [
       Object [("$and", Array [Object [("customer.alias", Str "bee")];
                               Object [("createdAt", Str "2020-09-09")]])];
       Object [("$nor", Array [Object [("location", Str "U.S.")];
                               Object [("status", Str "in progress")]])];
       Object [("batch", Str "abc")]]);
    ("_bsontype", Str "ObjectID");
    ("$text", Array [Object [("$search", Str "bee")]])].

(** The collection of the test schema: seven fields, indexes on
    [createdAt] and on [name]. *)
Definition sampleModel : Model.t := {|
  Model.modelName := "project";
  Model.schema := {|
    Schema.tree :=
      [("name", Null); ("createdAt", Null); ("updatedAt", Null); ("priority", Null);
       ("active", Null); ("config", Null); ("_id", Null)];
    Schema.indexes :=
      [([("createdAt", Number (of_nat 1))], []); ([("name", Number (of_nat 1))], [])];
  |};
|}.

Definition sampleMetadata : ModelMetadata.t := result (getMetadata sampleModel) (new None).

Definition sampleConditions : Value :=
  Object [("name", Str "x"); ("uncoveredField", Bool true)].

(** An instance that throws, with a message for either check. *)
Definition throwingInstance : t :=
  after None
    [SetThrowCondition (Constant true);
     SetFieldCheckHandler {|
       FieldCheckHandler.warnAction := None;
       FieldCheckHandler.throwMessage := Some (λ query, "invalid field");
     |};
     SetIndexCheckHandler {|
       PartialIndexCheckHandler.minCoverage := Some (literal 1 0);
       PartialIndexCheckHandler.warnAction := None;
       PartialIndexCheckHandler.throwMessage := Some (λ query, "low coverage");
     |}].

(** Unfolds a method run down to the state it is applied to. *)
Ltac run_M :=
  unfold run, exec, events, result, mbind, M_bind, mret, M_ret, get, modify, emit, next in *.

(** * Properties *)

(** ** Ordered sets *)

Section OrderedSets.

Implicit Types (s : OrderedSet) (x y : string) (l : list string).

Lemma set_has_true s x : set_has s x = true ↔ x ∈ s.
Proof. unfold set_has. apply bool_decide_eq_true. Qed.

Lemma set_has_false s x : set_has s x = false ↔ x ∉ s.
Proof. unfold set_has. apply bool_decide_eq_false. Qed.

Lemma elem_of_set_add s x y : y ∈ set_add s x ↔ y ∈ s ∨ y = x.
Proof.
  unfold set_add. destruct (set_has s x) eqn:E.
  - apply set_has_true in E. split; [auto | intros [? | ->]; assumption].
  - rewrite elem_of_app, list_elem_of_singleton. reflexivity.
Qed.

Lemma NoDup_set_add s x : NoDup s → NoDup (set_add s x).
Proof.
  intros Hs. unfold set_add. destruct (set_has s x) eqn:E; [assumption |].
  apply set_has_false in E. apply NoDup_app. split; [assumption |].
  split; [| apply NoDup_singleton].
  intros y Hy ->%list_elem_of_singleton. contradiction.
Qed.

Lemma elem_of_fold_set_add l s y : y ∈ fold_left set_add l s ↔ y ∈ s ∨ y ∈ l.
Proof.
  revert s. induction l as [| x l IH]; intros s; simpl.
  - rewrite elem_of_nil. tauto.
  - rewrite IH, elem_of_set_add, elem_of_cons. tauto.
Qed.

Lemma NoDup_fold_set_add l s : NoDup s → NoDup (fold_left set_add l s).
Proof.
  revert s. induction l as [| x l IH]; intros s Hs; simpl; [assumption |].
  apply IH, NoDup_set_add, Hs.
Qed.

Lemma elem_of_set_of_array l y : y ∈ set_of_array l ↔ y ∈ l.
Proof.
  unfold set_of_array. rewrite elem_of_fold_set_add, elem_of_nil. tauto.
Qed.

(** Membership in [new Set(arr)] only depends on which strings occur. *)
Lemma set_has_set_of_array l1 l2 x :
  (∀ y, y ∈ l1 ↔ y ∈ l2) →
  set_has (set_of_array l1) x = set_has (set_of_array l2) x.
Proof.
  intros H. unfold set_has. apply bool_decide_ext.
  rewrite !elem_of_set_of_array. apply H.
Qed.

End OrderedSets.

(** ** Index coverage *)

Lemma coveredFields_acc s index acc :
  coveredFields s index acc = acc + coveredFields s index 0.
Proof.
  revert acc. induction index as [| f index IH]; intros acc; simpl; [lia |].
  destruct (set_has s _); [| lia].
  rewrite (IH (acc + 1)), (IH 1). lia.
Qed.

Lemma coveredFields_prefixCount queryFields index :
  prefixCount queryFields index (coveredFields (set_of_array queryFields) index 0).
Proof.
  induction index as [| f index (Hlen & Hin & Hstop)]; simpl.
  - repeat split; [lia | intros; lia | intros ? [=]].
  - destruct (set_has _ _) eqn:E.
    + apply set_has_true in E. rewrite elem_of_set_of_array in E.
      rewrite coveredFields_acc. simpl. repeat split.
      * simpl. lia.
      * intros [| i] g Hi Hg; simpl in Hg; [by simplify_eq |].
        apply (Hin i); [lia | assumption].
      * intros g Hg. apply Hstop, Hg.
    + apply set_has_false in E. rewrite elem_of_set_of_array in E.
      repeat split; [simpl; lia | intros; lia |].
      intros g [= <-]. assumption.
Qed.

Lemma prefixCount_unique queryFields index n m :
  prefixCount queryFields index n → prefixCount queryFields index m → n = m.
Proof.
  intros (Hn & Hnin & Hnstop) (Hm & Hmin & Hmstop).
  destruct (Nat.lt_trichotomy n m) as [Hlt | [-> | Hlt]]; [| reflexivity |]; exfalso.
  - destruct (lookup_lt_is_Some_2 index n) as [f Hf]; [lia |].
    exact (Hnstop f Hf (Hmin n f Hlt Hf)).
  - destruct (lookup_lt_is_Some_2 index m) as [f Hf]; [lia |].
    exact (Hmstop f Hf (Hnin m f Hlt Hf)).
Qed.

Lemma isCoveredByIndex_existsb queryFields indices minCoverage :
  isCoveredByIndex queryFields indices minCoverage
  = existsb (λ index,
      meetsCoverage (coveredFields (set_of_array queryFields) index 0)
        (length queryFields) minCoverage) indices.
Proof.
  unfold isCoveredByIndex.
  induction indices as [| index rest IH]; simpl; [reflexivity |].
  destruct (meetsCoverage _ _ _); [reflexivity | apply IH].
Qed.

(** C2: [isCoveredByIndex] is true exactly when some index meets the
    threshold under prefix semantics, that is when the count [n] of its
    leading fields present among the query fields has
    [n / total >= minCoverage]; an index that meets it decides the result
    whatever follows it, and without such an index the result is false.
    (This holds for an empty [queryFields] as well.) *)
Theorem isCoveredByIndex_prefix_semantics
    (queryFields : list string) (indices : list (list string)) (minCoverage : number) :
  (isCoveredByIndex queryFields indices minCoverage = true
   ↔ ∃ index n, index ∈ indices ∧ prefixCount queryFields index n
       ∧ geb (div (of_nat n) (of_nat (length queryFields))) minCoverage = true)
  ∧ (∀ before index after n,
       indices = before ++ index :: after →
       prefixCount queryFields index n →
       geb (div (of_nat n) (of_nat (length queryFields))) minCoverage = true →
       isCoveredByIndex queryFields (before ++ [index]) minCoverage = true)
  ∧ (isCoveredByIndex queryFields indices minCoverage = false
     ↔ ∀ index n, index ∈ indices → prefixCount queryFields index n →
         geb (div (of_nat n) (of_nat (length queryFields))) minCoverage = false).
Proof.
  assert (Hiff : ∀ l, isCoveredByIndex queryFields l minCoverage = true
    ↔ ∃ index n, index ∈ l ∧ prefixCount queryFields index n
        ∧ geb (div (of_nat n) (of_nat (length queryFields))) minCoverage = true).
  { intros l. rewrite isCoveredByIndex_existsb, existsb_exists. split.
    - intros (index & Hin & Hmeets).
      exists index, (coveredFields (set_of_array queryFields) index 0).
      split; [by apply list_elem_of_In |]. split; [apply coveredFields_prefixCount | exact Hmeets].
    - intros (index & n & Hin & Hn & Hmeets). exists index. split; [by apply list_elem_of_In |].
      rewrite <- (prefixCount_unique _ _ _ _ Hn (coveredFields_prefixCount queryFields index)).
      exact Hmeets. }
  split; [apply Hiff |]. split.
  - intros before index after n _ Hn Hmeets. apply Hiff.
    exists index, n. split; [| by split]. rewrite elem_of_app, list_elem_of_singleton. by right.
  - rewrite <- not_true_iff_false, Hiff. split.
    + intros Hnone index n Hin Hn. apply not_true_iff_false. intros Hmeets.
      apply Hnone. by exists index, n.
    + intros Hall (index & n & Hin & Hn & Hmeets). rewrite (Hall index n Hin Hn) in Hmeets.
      discriminate.
Qed.

(** *** No query fields *)

(** [0 / 0] is NaN, and NaN is not [>=] any number. *)
Lemma meetsCoverage_zero_total minCoverage : meetsCoverage 0 0 minCoverage = false.
Proof. unfold meetsCoverage, geb. by destruct minCoverage as [[] | [] | | [] ? ?]. Qed.

Lemma coveredFields_empty_set index : coveredFields (set_of_array []) index 0 = 0.
Proof. by destruct index. Qed.

(** C5, as stated, fails: an empty [queryFields] is not covered, here by
    the index on [_id] with a minimum coverage of 0. *)
Lemma isCoveredByIndex_empty_not_covered :
  isCoveredByIndex [] [["_id"]] zero = false.
Proof. reflexivity. Qed.

(** C5, amended: for an empty [queryFields], [isCoveredByIndex] returns
    false for every index list and every minimum coverage, since every index
    covers 0 of 0 fields and [0 / 0 >= minCoverage] never holds; its caller
    [checkIndex] returns before calling it, without calls and without
    changing the instance. *)
Theorem isCoveredByIndex_empty_queryFields
    (indices : list (list string)) (minCoverage : number) :
  isCoveredByIndex [] indices minCoverage = false
  ∧ ∀ env modelMetadata queryConditions queryOptions this,
      run (checkIndex env modelMetadata queryConditions [] queryOptions) this = (tt, this, []).
Proof.
  split.
  - rewrite isCoveredByIndex_existsb.
    induction indices as [| index rest IH]; simpl; [reflexivity |].
    rewrite coveredFields_empty_set, meetsCoverage_zero_total. exact IH.
  - intros env modelMetadata queryConditions queryOptions this.
    unfold checkIndex, nothingToCover. simpl. by rewrite orb_true_r.
Qed.

(** *** Duplicate query fields *)

Lemma coveredFields_ext s1 s2 index acc :
  (∀ x, set_has s1 x = set_has s2 x) →
  coveredFields s1 index acc = coveredFields s2 index acc.
Proof.
  intros H. revert acc. induction index as [| f index IH]; intros acc; simpl; [reflexivity |].
  rewrite H. destruct (set_has s2 _); [apply IH | reflexivity].
Qed.

(** C6, as stated, fails: [["a"]] is covered by the index on [a] at a
    minimum coverage of 1, and no longer once [a] is appended again. *)
Lemma isCoveredByIndex_duplicate_changes_result :
  "a" ∈ ["a"]
  ∧ isCoveredByIndex ["a"] [["a"]] (literal 1 0) = true
  ∧ isCoveredByIndex (["a"] ++ ["a"]) [["a"]] (literal 1 0) = false.
Proof. split; [apply list_elem_of_here | split; reflexivity]. Qed.

(** C6, amended: a duplicate query field does not change which index
    fields are covered, but it counts in the total.  Appending a field that
    already occurs in [queryFields] leaves the covered count of every index
    as it was and raises the divisor by one: the result is true exactly when
    some index has [coveredCount / (total + 1) >= minCoverage].  The instance
    [isCovered(["customer","customer"], [["customer.name","customer.id"]], 1.0)]
    returns true. *)
Theorem isCoveredByIndex_duplicate_field
    (queryFields : list string) (f : string) (indices : list (list string))
    (minCoverage : number) :
  f ∈ queryFields →
  (∀ index, coveredFields (set_of_array (queryFields ++ [f])) index 0
            = coveredFields (set_of_array queryFields) index 0)
  ∧ (isCoveredByIndex (queryFields ++ [f]) indices minCoverage = true
     ↔ ∃ index, index ∈ indices
         ∧ geb (div (of_nat (coveredFields (set_of_array queryFields) index 0))
                  (of_nat (length queryFields + 1))) minCoverage = true)
  ∧ isCoveredByIndex ["customer"; "customer"] [["customer.name"; "customer.id"]] (literal 1 0)
    = true.
Proof.
  intros Hf.
  assert (Hcount : ∀ index, coveredFields (set_of_array (queryFields ++ [f])) index 0
                            = coveredFields (set_of_array queryFields) index 0).
  { intros index. apply coveredFields_ext. intros x. apply set_has_set_of_array.
    intros y. rewrite elem_of_app, list_elem_of_singleton. split; [| by left].
    intros [? | ->]; assumption. }
  split; [exact Hcount |]. split; [| reflexivity].
  rewrite isCoveredByIndex_existsb, existsb_exists, length_app. simpl.
  split.
  - intros (index & Hin & Hmeets). exists index. split; [by apply list_elem_of_In |].
    rewrite <- Hcount. exact Hmeets.
  - intros (index & Hin & Hmeets). exists index. split; [by apply list_elem_of_In |].
    rewrite Hcount. exact Hmeets.
Qed.

Lemma isCoveredByIndex_duplicate_field_witness :
  "b" ∈ ["a"; "b"]
  ∧ (isCoveredByIndex (["a"; "b"] ++ ["b"]) [["b"; "a"]; ["c"]] (literal 1 (-1)) = true
     ↔ ∃ index, index ∈ [["b"; "a"]; ["c"]]
         ∧ geb (div (of_nat (coveredFields (set_of_array ["a"; "b"]) index 0))
                  (of_nat (length ["a"; "b"] + 1))) (literal 1 (-1)) = true).
Proof.
  assert (H : "b" ∈ ["a"; "b"]) by (apply list_elem_of_further, list_elem_of_here).
  split; [exact H |].
  exact (proj1 (proj2 (isCoveredByIndex_duplicate_field ["a"; "b"] "b" [["b"; "a"]; ["c"]]
                         (literal 1 (-1)) H))).
Defined.
(** ** Field extraction *)

(** Induction on values that reaches the elements of arrays and the
    property values of objects. *)
Lemma Value_nested_ind (P : Value → Prop) :
  P Undefined → P Null → (∀ b, P (Bool b)) → (∀ x, P (Number x)) → (∀ s, P (Str s)) →
  (∀ elems, Forall P elems → P (Array elems)) →
  (∀ entries, Forall (λ kv, P (snd kv)) entries → P (Object entries)) →
  ∀ v, P v.
Proof.
  intros HU HN HB HNum HS HA HO.
  fix IH 1. intros [| | b | x | s | elems | entries].
  - exact HU.
  - exact HN.
  - apply HB.
  - apply HNum.
  - apply HS.
  - apply HA. induction elems as [| e elems IHl]; constructor; [apply IH | exact IHl].
  - apply HO. induction entries as [| [k e] entries IHl]; constructor; [apply IH | exact IHl].
Qed.

Lemma split_head_topLevelName key : topLevelName key (split_head key ".").
Proof.
  split.
  - induction key as [| a key IH]; intros before after; simpl.
    + by destruct before.
    + destruct (Ascii.eqb_spec a "."%char) as [-> | Hne]; [by destruct before |].
      destruct before as [| b before]; simpl; [intros [= Ha _]; by apply Hne |].
      intros [= _ H]. exact (IH _ _ H).
  - induction key as [| a key IH]; simpl; [by left |].
    destruct (Ascii.eqb_spec a "."%char) as [-> | Hne].
    + right. by exists key.
    + destruct IH as [IH | [rest IH]].
      * left. by f_equal.
      * right. exists rest.
        change (String a key = String a (split_head key "." +:+ String "." rest)).
        by f_equal.
Qed.

Lemma topLevelName_unique key name : topLevelName key name → name = split_head key ".".
Proof.
  intros [Hdot Hkey]. revert key Hkey.
  induction name as [| a name IH]; intros key Hkey.
  - destruct Hkey as [-> | [rest ->]]; [reflexivity |]. simpl. reflexivity.
  - assert (Ha : a ≠ "."%char).
    { intros ->. exact (Hdot "" name eq_refl). }
    assert (Hdot' : ∀ before after, name ≠ before +:+ String "." after).
    { intros before after ->. exact (Hdot (String a before) after eq_refl). }
    destruct Hkey as [-> | [rest ->]]; simpl.
    + destruct (Ascii.eqb_spec a "."%char); [contradiction |].
      f_equal. apply (IH Hdot'). by left.
    + destruct (Ascii.eqb_spec a "."%char); [contradiction |].
      f_equal. apply (IH Hdot'). right. by exists rest.
Qed.

Lemma includes_true arr x : includes arr x = true ↔ x ∈ arr.
Proof. unfold includes. apply bool_decide_eq_true. Qed.

Lemma includes_false arr x : includes arr x = false ↔ x ∉ arr.
Proof. unfold includes. apply bool_decide_eq_false. Qed.

Lemma supported_startsWith key :
  key ∈ SUPPORTED_QUERY_SELECTORS → startsWith key "$" = true.
Proof.
  unfold SUPPORTED_QUERY_SELECTORS. rewrite !elem_of_cons, elem_of_nil.
  intros [-> | [-> | [-> | []]]]; reflexivity.
Qed.

Lemma ignored_not_supported key :
  key ∈ FIELDS_TO_IGNORE → key ∉ SUPPORTED_QUERY_SELECTORS.
Proof.
  unfold FIELDS_TO_IGNORE. rewrite list_elem_of_singleton. intros -> H.
  apply supported_startsWith in H. discriminate.
Qed.

Lemma reachableField_Object entries name :
  reachableField (Object entries) name
  ↔ ∃ key expression, (key, expression) ∈ entries ∧ entryFields key expression name.
Proof.
  split.
  - inversion 1 as [? key e ? Hin Hign Hop Htop | ? key subs sub ? Hin Hsup Hsub Hreach]; subst.
    + exists key, e. split; [assumption |]. left. auto.
    + exists key, (Array subs). split; [assumption |]. right. eauto 6.
  - intros (key & e & Hin & [(Hign & Hop & Htop) | (Hsup & subs & sub & -> & Hsub & Hreach)]).
    + eapply reach_field; eassumption.
    + eapply reach_combinator; eassumption.
Qed.

Lemma reachableField_cons key expression entries name :
  reachableField (Object ((key, expression) :: entries)) name
  ↔ entryFields key expression name ∨ reachableField (Object entries) name.
Proof.
  rewrite !reachableField_Object. split.
  - intros (k & e & Hin & He). apply elem_of_cons in Hin as [[= -> ->] | Hin]; [by left |].
    right. eauto.
  - intros [He | (k & e & Hin & He)].
    + exists key, expression. split; [apply list_elem_of_here | exact He].
    + exists k, e. split; [by apply list_elem_of_further | exact He].
Qed.

Lemma reachableField_nil name : ¬ reachableField (Object []) name.
Proof.
  rewrite reachableField_Object. intros (k & e & Hin & _). by apply elem_of_nil in Hin.
Qed.

Lemma scanSubConditions_spec subs :
  Forall extracts subs →
  ∀ queryFields, NoDup queryFields →
  ∃ fields, scanSubConditions getRootQueryFields subs queryFields = Some fields
    ∧ NoDup fields
    ∧ ∀ name, name ∈ fields
        ↔ name ∈ queryFields ∨ ∃ sub, sub ∈ subs ∧ reachableField sub name.
Proof.
  induction 1 as [| sub subs (fs & Hfs & _ & Hmem) _ IH]; intros queryFields Hnd; simpl.
  - exists queryFields. split; [reflexivity |]. split; [assumption |].
    intros name. split; [by left |]. intros [? | (sub & Hin & _)]; [assumption |].
    by apply elem_of_nil in Hin.
  - rewrite Hfs.
    destruct (IH (fold_left set_add fs queryFields)) as (fields & Hrun & Hnd' & Hmem').
    { by apply NoDup_fold_set_add. }
    exists fields. split; [exact Hrun |]. split; [exact Hnd' |].
    intros name. rewrite Hmem', elem_of_fold_set_add, Hmem. split.
    + intros [[? | Hsub] | (sub' & Hin & Hreach)]; [by left | right .. ].
      * exists sub. split; [apply list_elem_of_here | assumption].
      * exists sub'. split; [by apply list_elem_of_further | assumption].
    + intros [? | (sub' & Hin & Hreach)]; [by left; left |].
      apply elem_of_cons in Hin as [-> | Hin]; [by left; right |].
      right. by exists sub'.
Qed.

Lemma scanEntries_spec entries :
  Forall (λ kv : string * Value,
            fst kv ∈ SUPPORTED_QUERY_SELECTORS →
            ∀ subs, snd kv = Array subs → Forall extracts subs) entries →
  ∀ queryFields, NoDup queryFields →
  ∃ fields, scanEntries getRootQueryFields entries queryFields = Some fields
    ∧ NoDup fields
    ∧ ∀ name, name ∈ fields
        ↔ name ∈ queryFields ∨ reachableField (Object entries) name.
Proof.
  induction 1 as [| [key expression] entries Hsubs _ IH]; intros queryFields Hnd.
  - exists queryFields. split; [reflexivity |]. split; [assumption |].
    intros name. split; [by left |]. intros [? | H]; [assumption |].
    by apply reachableField_nil in H.
  - simpl in Hsubs. cbn [scanEntries].
    assert (Hskip : (∀ name, ¬ entryFields key expression name) →
      ∃ fields, scanEntries getRootQueryFields entries queryFields = Some fields
        ∧ NoDup fields
        ∧ ∀ name, name ∈ fields
            ↔ name ∈ queryFields ∨ reachableField (Object ((key, expression) :: entries)) name).
    { intros Hnone. destruct (IH queryFields Hnd) as (fields & Hrun & Hnd' & Hmem).
      exists fields. split; [exact Hrun |]. split; [exact Hnd' |].
      intros name. rewrite Hmem, reachableField_cons. specialize (Hnone name). tauto. }
    destruct (includes FIELDS_TO_IGNORE key) eqn:Hign.
    { apply includes_true in Hign. apply Hskip.
      intros name [(Hign' & _) | (Hsup & _)]; [contradiction |].
      by apply ignored_not_supported in Hign. }
    apply includes_false in Hign.
    destruct (includes SUPPORTED_QUERY_SELECTORS key) eqn:Hsup; simpl.
    + apply includes_true in Hsup.
      pose proof (supported_startsWith key Hsup) as Hop.
      destruct expression as [| | b | x | s | subs | es]; simpl;
        try (rewrite Hop; simpl; apply Hskip;
             intros name [(_ & Hop' & _) | (_ & subs & sub & [=] & _)]; congruence).
      destruct (scanSubConditions_spec subs (Hsubs Hsup subs eq_refl) queryFields Hnd)
        as (fields1 & Hrun1 & Hnd1 & Hmem1).
      rewrite Hrun1.
      destruct (IH fields1 Hnd1) as (fields & Hrun & Hnd' & Hmem).
      exists fields. split; [exact Hrun |]. split; [exact Hnd' |].
      intros name. rewrite Hmem, Hmem1, reachableField_cons. unfold entryFields. split.
      * intros [[? | (sub & Hin & Hreach)] | ?]; [by left | | by right; right].
        right. left. right. split; [assumption |]. by exists subs, sub.
      * intros [? | [[(_ & Hop' & _) | (_ & subs' & sub & [= <-] & Hin & Hreach)] | ?]];
          [by left; left | congruence | | by right].
        left. right. by exists sub.
    + apply includes_false in Hsup.
      destruct (startsWith key "$") eqn:Hop; simpl.
      * apply Hskip. intros name [(_ & Hop' & _) | (Hsup' & _)]; [congruence | contradiction].
      * destruct (IH (set_add queryFields (split_head key ".")))
          as (fields & Hrun & Hnd' & Hmem); [by apply NoDup_set_add |].
        exists fields. split; [exact Hrun |]. split; [exact Hnd' |].
        intros name. rewrite Hmem, elem_of_set_add, reachableField_cons. unfold entryFields.
        split.
        -- intros [[? | ->] | ?]; [by left | | by right; right].
           right. left. left. split; [assumption |]. split; [assumption |].
           apply split_head_topLevelName.
        -- intros [? | [[(_ & _ & Htop) | (Hsup' & _)] | ?]];
             [by left; left | | contradiction | by right].
           left. right. by apply topLevelName_unique.
Qed.

Lemma is_filter_extracts v : is_filter v = true → extracts v.
Proof.
  enough (H : (is_filter v = true → extracts v)
              ∧ ∀ subs, v = Array subs →
                  Forall (λ sub, is_filter sub = true → extracts sub) subs) by apply H.
  induction v as [| | b | x | s | elems IH | entries IH] using Value_nested_ind;
    try solve [split; [discriminate | intros ? [=]]].
  - split; [discriminate |]. intros subs [= <-].
    eapply Forall_impl; [exact IH |]. by intros sub [Hsub _].
  - split; [| intros ? [=]].
    intros Hfilter. cbn [is_filter] in Hfilter. rewrite forallb_forall in Hfilter.
    destruct (scanEntries_spec entries) with (queryFields := @nil string)
      as (fields & Hrun & Hnd & Hmem).
    + rewrite Forall_forall in IH. apply Forall_forall.
      intros [key expression] Hin Hsup subs Hexpr. simpl in *. subst expression.
      specialize (Hfilter (key, Array subs) (proj1 (list_elem_of_In _ _) Hin)).
      simpl in Hfilter. apply includes_true in Hsup. rewrite Hsup in Hfilter.
      rewrite forallb_forall in Hfilter.
      destruct (IH (key, Array subs) Hin) as [_ Hsubs]. specialize (Hsubs subs eq_refl).
      rewrite Forall_forall in Hsubs. apply Forall_forall. intros sub Hsub.
      apply (Hsubs sub Hsub), Hfilter. by apply list_elem_of_In.
    + apply NoDup_nil_2.
    + exists fields. split; [exact Hrun |]. split; [exact Hnd |].
      intros name. rewrite Hmem, elem_of_nil. tauto.
Qed.

Lemma scanEntries_app rec entries1 entries2 queryFields :
  scanEntries rec (entries1 ++ entries2) queryFields
  = scanEntries rec entries1 queryFields ≫= scanEntries rec entries2.
Proof.
  revert queryFields. induction entries1 as [| [key expression] entries1 IH];
    intros queryFields; [reflexivity |].
  cbn [scanEntries app].
  destruct (includes FIELDS_TO_IGNORE key); [apply IH |].
  destruct (includes SUPPORTED_QUERY_SELECTORS key && isArray expression).
  - destruct expression; try apply IH.
    destruct (scanSubConditions rec elems queryFields); [apply IH | reflexivity].
  - destruct (negb (startsWith key "$")); apply IH.
Qed.

(** An entry whose key is in the ignore-list, or is an operator outside the
    supported combinators, is passed over whatever its value is. *)
Lemma scanEntries_skip rec key expression entries queryFields :
  key ∈ FIELDS_TO_IGNORE
  ∨ (startsWith key "$" = true ∧ key ∉ SUPPORTED_QUERY_SELECTORS) →
  scanEntries rec ((key, expression) :: entries) queryFields
  = scanEntries rec entries queryFields.
Proof.
  intros [Hign | [Hop Hsup]]; cbn [scanEntries].
  - apply includes_true in Hign. by rewrite Hign.
  - apply includes_false in Hsup. rewrite Hsup, Hop. simpl.
    by destruct (includes FIELDS_TO_IGNORE key).
Qed.

(** C1: on a filter made of plain field keys, ignore-list keys, unsupported
    operator keys and supported combinators over sequences of sub-filters,
    [getRootQueryFields] returns, without duplicates, exactly the top-level
    field names reachable by un-nesting the combinators, a dotted path
    counting for its first segment; an ignore-list key and an operator key
    outside the combinators contribute nothing, whatever their value. *)
Theorem getRootQueryFields_reachable_fields (queryConditions : Value) :
  is_filter queryConditions = true →
  (∃ fields, getRootQueryFields queryConditions = Some fields
     ∧ NoDup fields
     ∧ ∀ name, name ∈ fields ↔ reachableField queryConditions name)
  ∧ (∀ before key expression after,
       queryConditions = Object (before ++ (key, expression) :: after) →
       key ∈ FIELDS_TO_IGNORE
       ∨ (startsWith key "$" = true ∧ key ∉ SUPPORTED_QUERY_SELECTORS) →
       getRootQueryFields queryConditions = getRootQueryFields (Object (before ++ after))).
Proof.
  intros Hfilter. split; [exact (is_filter_extracts _ Hfilter) |].
  intros before key expression after -> Hskip. cbn [getRootQueryFields].
  rewrite !scanEntries_app. destruct (scanEntries _ before []) as [queryFields |]; simpl;
    [| reflexivity].
  by apply scanEntries_skip.
Qed.

Lemma getRootQueryFields_reachable_fields_witness :
  is_filter sampleFilter = true
  ∧ ∃ fields, getRootQueryFields sampleFilter = Some fields
      ∧ NoDup fields
      ∧ ∀ name, name ∈ fields ↔ reachableField sampleFilter name.
Proof.
  split; [reflexivity |].
  exact (proj1 (getRootQueryFields_reachable_fields sampleFilter eq_refl)).
Defined.

Example getRootQueryFields_sampleFilter :
  getRootQueryFields sampleFilter
  = Some ["customer"; "createdAt"; "location"; "status"; "batch"].
Proof. reflexivity. Qed.

(** ** The policy of the two checks *)

(** A check in one equation: nothing without a violation, the failure when
    throwing is on and a message is configured, the warn branch otherwise. *)
Lemma check_run c env modelMetadata queryConditions queryFields queryOptions this :
  run (check c env modelMetadata queryConditions queryFields queryOptions) this
  = if violates c this modelMetadata queryFields then
      match guarded (shouldThrow env this) (throwMessageOf c this) with
      | Some throwMessage =>
          (tt, this,
           [NextCalled (Some (failure c (throwMessage
              (violatingQuery c modelMetadata queryConditions queryFields queryOptions))))])
      | None => warnBranch c env modelMetadata queryConditions queryFields queryOptions this
      end
    else (tt, this, []).
Proof.
  destruct c; unfold check, violates, warnBranch, violatingQuery, throwMessageOf, warnActionOf,
    warned, addWarned, failure, throttleDigest, coverageThreshold.
  - unfold checkField.
    destruct (length _ =? 0)%nat; simpl; [reflexivity |]. run_M.
    destruct (guarded (SafeQuery.shouldThrow env this) _); [reflexivity |].
    destruct (guarded (SafeQuery.shouldWarn env this) _); [| reflexivity].
    by destruct (bool_decide _).
  - unfold checkIndex.
    destruct (nothingToCover _ _); simpl; [reflexivity |]. run_M.
    destruct (isCoveredByIndex _ _ _); simpl; [reflexivity |].
    destruct (guarded (SafeQuery.shouldThrow env this) _); [reflexivity |].
    destruct (guarded (SafeQuery.shouldWarn env this) _); [| reflexivity].
    by destruct (bool_decide _).
Qed.

Lemma warnBranch_options c env md qc qf qo this :
  options (warnBranch c env md qc qf qo this).1.2 = options this
  ∧ modelMetadataMap (warnBranch c env md qc qf qo this).1.2 = modelMetadataMap this.
Proof.
  unfold warnBranch. destruct (guarded _ _); [| done].
  destruct (bool_decide _); [done |]. by destruct c.
Qed.

(** A check leaves the options and the metadata cache as they are. *)
Lemma check_frame c env md qc qf qo this :
  options (exec (check c env md qc qf qo) this) = options this
  ∧ modelMetadataMap (exec (check c env md qc qf qo) this) = modelMetadataMap this.
Proof.
  unfold exec. rewrite check_run. destruct (violates _ _ _ _); [| done].
  destruct (guarded (shouldThrow env this) _); [done |]. apply warnBranch_options.
Qed.

Lemma violates_options c this this' md qf :
  options this' = options this → violates c this' md qf = violates c this md qf.
Proof. intros H. destruct c; unfold violates, coverageThreshold; by rewrite ?H. Qed.

Lemma warned_addWarned c digest this :
  warned c (addWarned c digest this) = {[digest]} ∪ warned c this.
Proof. by destruct c. Qed.

Lemma warned_clearWarned c this : warned c (clearWarned c this) = ∅.
Proof. by destruct c. Qed.

Lemma options_clearWarned c this : options (clearWarned c this) = options this.
Proof. by destruct c. Qed.

Lemma options_addWarned c digest this : options (addWarned c digest this) = options this.
Proof. by destruct c. Qed.

(** The warn path on a digest that was not recorded: one call of the notify
    callback, and the digest is recorded. *)
Lemma check_notifies c env md qc qf qo this warnAction :
  violates c this md qf = true →
  guarded (shouldThrow env this) (throwMessageOf c this) = None →
  shouldWarn env this = true →
  warnActionOf c this = Some warnAction →
  throttleDigest qf ∉ warned c this →
  run (check c env md qc qf qo) this
  = (tt, addWarned c (throttleDigest qf) this,
     [WarnActionCalled c (violatingQuery c md qc qf qo)
        (warnAction (violatingQuery c md qc qf qo))]).
Proof.
  intros Hv Hthrow Hwarn Haction Hnew. rewrite check_run, Hv, Hthrow.
  unfold warnBranch. rewrite Hwarn, Haction. simpl.
  by rewrite bool_decide_eq_false_2.
Qed.

(** On a recorded digest a check never notifies and changes nothing in the
    throttle set. *)
Lemma check_suppressed c env md qc qf qo this :
  throttleDigest qf ∈ warned c this →
  notifications (events (check c env md qc qf qo) this) = 0
  ∧ warned c (exec (check c env md qc qf qo) this) = warned c this.
Proof.
  intros Hseen. unfold events, exec. rewrite check_run.
  destruct (violates _ _ _ _); [| done].
  destruct (guarded (shouldThrow env this) _); [done |].
  unfold warnBranch. destruct (guarded (shouldWarn env this) _); [| done].
  by rewrite bool_decide_eq_true_2.
Qed.

Lemma notifications_app evs1 evs2 :
  notifications (evs1 ++ evs2) = notifications evs1 + notifications evs2.
Proof. unfold notifications. by rewrite List.filter_app, length_app. Qed.

(** C4: on a violating invocation of either check with [shouldThrow()] true,
    a configured [throwMessage] makes the check signal the typed failure
    ([InvalidField], resp. [LowIndexCoverage]) with the message the callback
    returns, and nothing else: the notify callback is not called and no
    digest is recorded, whatever [shouldWarn()] says.  Without a
    [throwMessage] the check does what its warn branch does: it signals no
    failure at all. *)
Theorem throw_has_priority_over_warn (c : Check) (env : Ambient) (this : t)
    (modelMetadata : ModelMetadata.t) (queryConditions : Value) (queryFields : list string)
    (queryOptions : Value) :
  violates c this modelMetadata queryFields = true →
  shouldThrow env this = true →
  let call := check c env modelMetadata queryConditions queryFields queryOptions in
  (∀ throwMessage, throwMessageOf c this = Some throwMessage →
     run call this
     = (tt, this,
        [NextCalled (Some (failure c (throwMessage
           (violatingQuery c modelMetadata queryConditions queryFields queryOptions))))])
     ∧ notifications (events call this) = 0)
  ∧ (throwMessageOf c this = None →
     run call this
     = warnBranch c env modelMetadata queryConditions queryFields queryOptions this
     ∧ failures (events call this) = []).
Proof.
  intros Hv Hthrow call. subst call. split.
  - intros throwMessage Hmsg. unfold events. rewrite check_run, Hv, Hthrow, Hmsg. done.
  - intros Hmsg. unfold events. rewrite check_run, Hv, Hthrow, Hmsg. simpl. split; [done |].
    unfold warnBranch. destruct (guarded _ _); [| done]. by destruct (bool_decide _).
Qed.

(** C3: take the warn path of either check ([shouldWarn()] true, a
    [warnAction] configured, no failure signalled) on a violating query whose
    digest is not in the throttle set.  Running the check twice calls the
    notify callback exactly once, the first time; once the throttle set is
    cleared the same query notifies again; and a violating query with another
    digest notifies on its own, without lifting the suppression of the
    first. *)
Theorem warn_is_throttled (c : Check) (env : Ambient) (this : t)
    (modelMetadata : ModelMetadata.t) (queryConditions : Value) (queryFields : list string)
    (queryOptions : Value) (warnAction : WarnAction) :
  violates c this modelMetadata queryFields = true →
  guarded (shouldThrow env this) (throwMessageOf c this) = None →
  shouldWarn env this = true →
  warnActionOf c this = Some warnAction →
  throttleDigest queryFields ∉ warned c this →
  let call := check c env modelMetadata queryConditions queryFields queryOptions in
  let this1 := exec call this in
  let this2 := exec call this1 in
  notifications (events call this) = 1
  ∧ notifications (events call this1) = 0
  ∧ notifications (events call this ++ events call this1) = 1
  ∧ warned c (clearWarned c this2) = ∅
  ∧ notifications (events call (clearWarned c this2)) = 1
  ∧ ∀ modelMetadata' queryConditions' queryFields' queryOptions',
      violates c this modelMetadata' queryFields' = true →
      throttleDigest queryFields' ≠ throttleDigest queryFields →
      throttleDigest queryFields' ∉ warned c this →
      let other := check c env modelMetadata' queryConditions' queryFields' queryOptions' in
      notifications (events other this1) = 1
      ∧ notifications (events call (exec other this1)) = 0.
Proof.
  intros Hv Hthrow Hwarn Haction Hnew call this1 this2. subst call.
  pose proof (check_notifies c env modelMetadata queryConditions queryFields queryOptions
                this warnAction Hv Hthrow Hwarn Haction Hnew) as Hrun.
  assert (Hthis1 : this1 = addWarned c (throttleDigest queryFields) this).
  { subst this1. unfold exec. by rewrite Hrun. }
  assert (Hseen1 : throttleDigest queryFields ∈ warned c this1).
  { rewrite Hthis1, warned_addWarned, elem_of_union, elem_of_singleton. by left. }
  assert (Hopt1 : options this1 = options this).
  { rewrite Hthis1. apply options_addWarned. }
  assert (Hfirst : notifications
    (events (check c env modelMetadata queryConditions queryFields queryOptions) this) = 1).
  { unfold events. by rewrite Hrun. }
  destruct (check_suppressed c env modelMetadata queryConditions queryFields queryOptions
              this1 Hseen1) as [Hsecond Hkeep].
  split; [exact Hfirst |]. split; [exact Hsecond |]. split.
  { by rewrite notifications_app, Hfirst, Hsecond. }
  split; [apply warned_clearWarned |]. split.
  - assert (Hopt2 : options (clearWarned c this2) = options this).
    { rewrite options_clearWarned. subst this2.
      rewrite (proj1 (check_frame _ _ _ _ _ _ _)). exact Hopt1. }
    unfold events. rewrite check_notifies with (warnAction := warnAction).
    + reflexivity.
    + by rewrite (violates_options _ _ _ _ _ Hopt2).
    + unfold shouldThrow, throwMessageOf in *. destruct c; by rewrite Hopt2.
    + unfold shouldWarn in *. by rewrite Hopt2.
    + unfold warnActionOf in *. destruct c; by rewrite Hopt2.
    + rewrite warned_clearWarned. apply not_elem_of_empty.
  - intros md' qc' qf' qo' Hv' Hdiff Hnew' other.
    assert (Hrun' : run other this1
      = (tt, addWarned c (throttleDigest qf') this1,
         [WarnActionCalled c (violatingQuery c md' qc' qf' qo')
            (warnAction (violatingQuery c md' qc' qf' qo'))])).
    { subst other. apply check_notifies.
      - by rewrite (violates_options _ _ _ _ _ Hopt1).
      - unfold shouldThrow, throwMessageOf in *. destruct c; by rewrite Hopt1.
      - unfold shouldWarn in *. by rewrite Hopt1.
      - unfold warnActionOf in *. destruct c; by rewrite Hopt1.
      - rewrite Hthis1, warned_addWarned, not_elem_of_union, elem_of_singleton. by split. }
    split.
    + unfold events. by rewrite Hrun'.
    + apply check_suppressed. unfold exec. rewrite Hrun'. simpl.
      rewrite warned_addWarned, elem_of_union. by right.
Qed.

(** *** Concrete instances *)

Lemma throw_has_priority_over_warn_witness :
  violates IndexCheck throwingInstance sampleMetadata ["name"; "uncoveredField"] = true
  ∧ shouldThrow ∅ throwingInstance = true
  ∧ shouldWarn ∅ throwingInstance = true
  ∧ run (check IndexCheck ∅ sampleMetadata sampleConditions ["name"; "uncoveredField"] Undefined)
      throwingInstance
    = (tt, throwingInstance, [NextCalled (Some (LowIndexCoverage "low coverage"))]).
Proof.
  assert (Hv : violates IndexCheck throwingInstance sampleMetadata ["name"; "uncoveredField"]
               = true) by (vm_compute; reflexivity).
  assert (Hthrow : shouldThrow ∅ throwingInstance = true) by reflexivity.
  split; [exact Hv |]. split; [exact Hthrow |]. split; [reflexivity |].
  exact (proj1 (proj1 (throw_has_priority_over_warn IndexCheck ∅ throwingInstance sampleMetadata
                         sampleConditions ["name"; "uncoveredField"] Undefined Hv Hthrow)
                  (λ query, "low coverage") eq_refl)).
Defined.

Lemma warn_is_throttled_witness :
  let call := check FieldCheck ∅ sampleMetadata sampleConditions ["name"; "uncoveredField"]
                Undefined in
  violates FieldCheck (new None) sampleMetadata ["name"; "uncoveredField"] = true
  ∧ notifications (events call (new None)) = 1
  ∧ notifications (events call (exec call (new None))) = 0.
Proof.
  assert (Hv : violates FieldCheck (new None) sampleMetadata ["name"; "uncoveredField"] = true)
    by (vm_compute; reflexivity).
  assert (Hnew : throttleDigest ["name"; "uncoveredField"] ∉ warned FieldCheck (new None))
    by apply not_elem_of_empty.
  destruct (warn_is_throttled FieldCheck ∅ (new None) sampleMetadata sampleConditions
              ["name"; "uncoveredField"] Undefined defaultFieldWarningHandler
              Hv eq_refl eq_refl eq_refl Hnew) as (H1 & H2 & _).
  split; [exact Hv |]. split; [exact H1 | exact H2].
Defined.

(** ** The metadata cache *)

Lemma getMetadata_hit model this existingMetadata :
  modelMetadataMap this !! Model.modelName model = Some existingMetadata →
  run (getMetadata model) this = (existingMetadata, this, []).
Proof. intros H. unfold getMetadata. run_M. by rewrite H. Qed.

Lemma getMetadata_miss model this :
  modelMetadataMap this !! Model.modelName model = None →
  run (getMetadata model) this
  = (newMetadata model, withMetadata (Model.modelName model) (newMetadata model) this, []).
Proof. intros H. unfold getMetadata. run_M. by rewrite H. Qed.

Lemma getMetadata_frame model this :
  options (exec (getMetadata model) this) = options this
  ∧ events (getMetadata model) this = [].
Proof.
  unfold exec, events.
  destruct (modelMetadataMap this !! Model.modelName model) as [existingMetadata |] eqn:Hlook.
  - by rewrite (getMetadata_hit _ _ _ Hlook).
  - by rewrite (getMetadata_miss _ _ Hlook).
Qed.

(** C8: [getMetadata] memoizes, writing each key once.  An entry found
    under the model name is returned as it is, and nothing is computed or
    stored.  Otherwise the entry holds the model name, the keys of the schema
    tree and the field lists of the schema indexes followed by [['_id']]; it
    is stored under the model name and returned.  In both cases a second call
    for the same model name, whatever schema comes with it, returns the entry
    of the first call and leaves the instance as the first call left it. *)
Theorem getMetadata_memoizes (model : Model.t) (this : t) :
  (∀ existingMetadata,
     modelMetadataMap this !! Model.modelName model = Some existingMetadata →
     run (getMetadata model) this = (existingMetadata, this, []))
  ∧ (modelMetadataMap this !! Model.modelName model = None →
     run (getMetadata model) this
     = (newMetadata model, withMetadata (Model.modelName model) (newMetadata model) this, [])
     ∧ modelMetadataMap (exec (getMetadata model) this) !! Model.modelName model
       = Some (newMetadata model)
     ∧ ∀ other, other ≠ Model.modelName model →
         modelMetadataMap (exec (getMetadata model) this) !! other
         = modelMetadataMap this !! other)
  ∧ (∀ model', Model.modelName model' = Model.modelName model →
       run (getMetadata model') (exec (getMetadata model) this)
       = (result (getMetadata model) this, exec (getMetadata model) this, [])).
Proof.
  split; [intros existingMetadata; apply getMetadata_hit |]. split.
  - intros Hmiss. unfold exec. rewrite (getMetadata_miss _ _ Hmiss). simpl.
    split; [reflexivity |]. split; [apply lookup_insert_eq |].
    intros other Hother. by apply lookup_insert_ne.
  - intros model' Hname. unfold exec, result.
    destruct (modelMetadataMap this !! Model.modelName model) as [existingMetadata |] eqn:Hlook.
    + rewrite (getMetadata_hit _ _ _ Hlook). simpl. apply getMetadata_hit. by rewrite Hname.
    + rewrite (getMetadata_miss _ _ Hlook). simpl. apply getMetadata_hit.
      rewrite Hname. apply lookup_insert_eq.
Qed.

(** *** The index on [_id] *)

Lemma last_newMetadata model : last (ModelMetadata.indices (newMetadata model)) = Some ["_id"].
Proof. unfold newMetadata. simpl. apply last_snoc. Qed.

Lemma getMetadata_cacheEndsWithId model this :
  cacheEndsWithId this →
  cacheEndsWithId (exec (getMetadata model) this)
  ∧ last (ModelMetadata.indices (result (getMetadata model) this)) = Some ["_id"].
Proof.
  intros Hinv. unfold exec, result.
  destruct (modelMetadataMap this !! Model.modelName model) as [existingMetadata |] eqn:Hlook.
  - rewrite (getMetadata_hit _ _ _ Hlook). simpl. split; [exact Hinv | exact (Hinv _ _ Hlook)].
  - rewrite (getMetadata_miss _ _ Hlook). simpl. split; [| apply last_newMetadata].
    intros name metadata. unfold withMetadata. simpl. rewrite lookup_insert.
    case_decide; [intros [= <-]; apply last_newMetadata | apply Hinv].
Qed.

Lemma checkQueryFn_cacheEndsWithId env query this :
  cacheEndsWithId this → cacheEndsWithId (exec (checkQueryFn env query) this).
Proof.
  intros Hinv. unfold checkQueryFn.
  destruct (negb (truthy _)); [exact Hinv |].
  destruct (getRootQueryFields _) as [queryFields |]; [| exact Hinv].
  destruct (length queryFields =? 0)%nat; [exact Hinv |].
  destruct (getMetadata_cacheEndsWithId (Query.model query) this Hinv) as [Hinv' _].
  revert Hinv'. unfold cacheEndsWithId, exec, run, mbind, M_bind.
  destruct (getMetadata (Query.model query) this) as [[metadata this1] evs1]. simpl.
  pose proof (check_frame FieldCheck env metadata (Query._conditions query) queryFields
                (Query.options query) this1) as [_ Hmap1].
  unfold exec, run in Hmap1. simpl in Hmap1.
  destruct (checkField env metadata _ queryFields _ this1) as [[[] this2] evs2]. simpl in *.
  pose proof (check_frame IndexCheck env metadata (Query._conditions query) queryFields
                (Query.options query) this2) as [_ Hmap2].
  unfold exec, run in Hmap2. simpl in Hmap2.
  destruct (checkIndex env metadata _ queryFields _ this2) as [[[] this3] evs3]. simpl in *.
  unfold next, emit. simpl. rewrite Hmap2, Hmap1. auto.
Qed.

Lemma after_cacheEndsWithId options ops : cacheEndsWithId (after options ops).
Proof.
  unfold after. induction ops as [| op ops IH] using rev_ind.
  - intros name metadata. simpl. by rewrite lookup_empty.
  - rewrite fold_left_app. simpl. destruct op; try exact IH.
    by apply checkQueryFn_cacheEndsWithId.
Qed.

(** C9: on an instance reached from [new SafeQuery(options)] by any
    operations, the metadata [getMetadata] returns has index lists that end
    with [['_id']] and hence are not empty; with such metadata the guard of
    [checkIndex] on a collection without indexes is not what makes it return:
    the guard holds exactly when the extracted field set is empty. *)
Theorem getMetadata_indices_end_with_id
    (options : option SafeQueryOptions.t) (ops : list Op) (model : Model.t) :
  let metadata := result (getMetadata model) (after options ops) in
  last (ModelMetadata.indices metadata) = Some ["_id"]
  ∧ ModelMetadata.indices metadata ≠ []
  ∧ (length (ModelMetadata.indices metadata) =? 0)%nat = false
  ∧ ∀ queryFields,
      nothingToCover metadata queryFields = (length queryFields =? 0)%nat.
Proof.
  intros metadata.
  destruct (getMetadata_cacheEndsWithId model (after options ops)
              (after_cacheEndsWithId options ops)) as [_ Hlast].
  fold metadata in Hlast.
  assert (Hne : ModelMetadata.indices metadata ≠ []).
  { intros Hnil. by rewrite Hnil in Hlast. }
  assert (Hlen : (length (ModelMetadata.indices metadata) =? 0)%nat = false).
  { destruct (ModelMetadata.indices metadata); [done | reflexivity]. }
  split; [exact Hlast |]. split; [exact Hne |]. split; [exact Hlen |].
  intros queryFields. unfold nothingToCover. by rewrite Hlen.
Qed.

(** ** The throttle digest *)

Lemma substring_all s m : (String.length s ≤ m)%nat → String.substring 0 m s = s.
Proof.
  revert m. induction s as [| a s IH]; intros m Hm; simpl in *.
  - by destruct m.
  - destruct m as [| m]; [lia |]. f_equal. apply IH. lia.
Qed.

(** [substring k (length s - k) s] is the end of [s] from position [k]. *)
Lemma substring_suffix s k :
  (k ≤ String.length s)%nat →
  String.length (String.substring k (String.length s - k) s) = (String.length s - k)%nat
  ∧ ∃ before, s = before +:+ String.substring k (String.length s - k) s.
Proof.
  revert k. induction s as [| a s IH]; intros k Hk; simpl in *.
  - replace k with 0%nat by lia. split; [reflexivity | by exists ""].
  - destruct k as [| k]; simpl.
    + rewrite substring_all by lia. split; [reflexivity | by exists ""].
    + destruct (IH k) as [Hlen [before Hbefore]]; [lia |].
      split; [exact Hlen |]. exists (String a before).
      change (String a s = String a (before +:+ String.substring k (String.length s - k) s)).
      by f_equal.
Qed.

Lemma slice_last_suffix n s :
  String.length (slice_last n s) = Nat.min n (String.length s)
  ∧ ∃ before, s = before +:+ slice_last n s.
Proof.
  unfold slice_last. destruct (le_lt_dec n (String.length s)) as [Hle | Hlt].
  - destruct (substring_suffix s (String.length s - n)) as [Hlen Hsuf]; [lia |].
    replace (String.length s - (String.length s - n))%nat with n in * by lia.
    split; [lia | exact Hsuf].
  - replace (String.length s - n)%nat with 0%nat by lia.
    rewrite substring_all by lia. split; [lia | by exists ""].
Qed.

(** The encoded SHA-1 digest has 28 characters. *)
Lemma length_sha1_base64 s : String.length (Crypto.sha1_base64 s) = 28%nat.
Proof.
  unfold Crypto.sha1_base64, Crypto.sha1.
  destruct (fold_left Crypto.compress _ _) as [[[[h0 h1] h2] h3] h4]. reflexivity.
Qed.

Lemma sortBy_sorted queryFields :
  Sorted String.le (sortBy queryFields) ∧ sortBy queryFields ≡ₚ queryFields.
Proof.
  unfold sortBy. split; [apply Sorted_merge_sort, _ | apply merge_sort_Permutation].
Qed.

(** Sorting forgets the order the fields came in. *)
Lemma sortBy_Permutation queryFields1 queryFields2 :
  queryFields1 ≡ₚ queryFields2 → sortBy queryFields1 = sortBy queryFields2.
Proof.
  intros Hperm.
  destruct (sortBy_sorted queryFields1) as [Hs1 Hp1], (sortBy_sorted queryFields2) as [Hs2 Hp2].
  apply (Sorted_unique String.le); [assumption .. |].
  by rewrite Hp1, Hp2.
Qed.

(** A check that notifies records the digest of its [queryFields]. *)
Lemma check_records_digest c env md qc qf qo this :
  notifications (events (check c env md qc qf qo) this) ≠ 0 →
  warned c (exec (check c env md qc qf qo) this) = {[throttleDigest qf]} ∪ warned c this.
Proof.
  unfold events, exec. rewrite check_run.
  destruct (violates _ _ _ _); [| done].
  destruct (guarded (shouldThrow env this) _); [done |].
  unfold warnBranch. destruct (guarded (shouldWarn env this) _); [| done].
  destruct (bool_decide _); [done |]. intros _. apply warned_addWarned.
Qed.

(** A check leaves the throttle set of the other check alone. *)
Lemma check_other_warned c c' env md qc qf qo this :
  c ≠ c' → warned c' (exec (check c env md qc qf qo) this) = warned c' this.
Proof.
  intros Hne. unfold exec. rewrite check_run.
  destruct (violates _ _ _ _); [| done].
  destruct (guarded (shouldThrow env this) _); [done |].
  unfold warnBranch. destruct (guarded (shouldWarn env this) _); [| done].
  destruct (bool_decide _); [done |]. by destruct c, c'.
Qed.

(** The pre hook on a query with fields: the metadata is looked up, the
    field check runs, then the index check, then [next()]. *)
Lemma checkQueryFn_run env query this queryFields :
  truthy (Query._conditions query) = true →
  getRootQueryFields (Query._conditions query) = Some queryFields →
  queryFields ≠ [] →
  let metadata := result (getMetadata (Query.model query)) this in
  let this1 := exec (getMetadata (Query.model query)) this in
  let fieldCall :=
    check FieldCheck env metadata (Query._conditions query) queryFields (Query.options query) in
  let indexCall :=
    check IndexCheck env metadata (Query._conditions query) queryFields (Query.options query) in
  run (checkQueryFn env query) this
  = (tt, exec indexCall (exec fieldCall this1),
     events fieldCall this1 ++ events indexCall (exec fieldCall this1) ++ [NextCalled None]).
Proof.
  intros Htruthy Hfields Hne. unfold checkQueryFn. rewrite Htruthy, Hfields. simpl.
  destruct queryFields as [| f queryFields]; [done |]. simpl.
  pose proof (getMetadata_frame (Query.model query) this) as [_ Hev0]. revert Hev0.
  unfold check, exec, events, result, run, mbind, M_bind, next, emit.
  destruct (getMetadata (Query.model query) this) as [[metadata this1] evs1]. simpl.
  intros ->.
  destruct (checkField env metadata _ _ _ this1) as [[[] this2] evs2]. simpl.
  by destruct (checkIndex env metadata _ _ _ this2) as [[[] this3] evs3].
Qed.

(** C7: the digest both checks record and look up is a function of the
    full [queryFields] they are given, the output of the field extractor:
    the fields are sorted in the order of strings and concatenated, the
    SHA-1 digest of the result is base64 encoded, and its last 5 characters
    are kept.  Permutations of the same fields have the same digest.  A check
    that notifies records the digest of [queryFields], whatever the violating
    fields are, so that a later query with a permutation of these fields is
    not notified, whatever its metadata and violating subset.  In the pre
    hook the digest recorded by a check that notifies is that of the fields
    [getRootQueryFields] extracted from the query. *)
Theorem throttle_digest_of_sorted_fields :
  (∀ queryFields,
     hash queryFields = Crypto.sha1_base64 (join "" (sortBy queryFields))
     ∧ Sorted String.le (sortBy queryFields)
     ∧ sortBy queryFields ≡ₚ queryFields
     ∧ String.length (throttleDigest queryFields) = 5%nat
     ∧ ∃ before, hash queryFields = before +:+ throttleDigest queryFields)
  ∧ (∀ queryFields1 queryFields2,
       queryFields1 ≡ₚ queryFields2 →
       throttleDigest queryFields1 = throttleDigest queryFields2)
  ∧ (∀ c env this modelMetadata queryConditions queryFields queryOptions,
       let call := check c env modelMetadata queryConditions queryFields queryOptions in
       notifications (events call this) ≠ 0 →
       warned c (exec call this) = {[throttleDigest queryFields]} ∪ warned c this
       ∧ ∀ env' modelMetadata' queryConditions' queryFields' queryOptions',
           queryFields' ≡ₚ queryFields →
           notifications
             (events (check c env' modelMetadata' queryConditions' queryFields' queryOptions')
                (exec call this)) = 0)
  ∧ (∀ env query this queryFields,
       getRootQueryFields (Query._conditions query) = Some queryFields →
       notifications (events (checkQueryFn env query) this) ≠ 0 →
       ∃ c, throttleDigest queryFields ∈ warned c (exec (checkQueryFn env query) this)).
Proof.
  assert (Hperm : ∀ queryFields1 queryFields2,
            queryFields1 ≡ₚ queryFields2 →
            throttleDigest queryFields1 = throttleDigest queryFields2).
  { intros queryFields1 queryFields2 H. unfold throttleDigest, hash.
    by rewrite (sortBy_Permutation _ _ H). }
  split; [| split; [exact Hperm |]; split].
  - intros queryFields. split; [reflexivity |].
    destruct (sortBy_sorted queryFields) as [Hs Hp]. split; [exact Hs |]. split; [exact Hp |].
    unfold throttleDigest. destruct (slice_last_suffix 5 (hash queryFields)) as [Hlen Hsuf].
    split; [| exact Hsuf]. rewrite Hlen. unfold hash. by rewrite length_sha1_base64.
  - intros c env this md qc qf qo call Hnotified.
    pose proof (check_records_digest c env md qc qf qo this Hnotified) as Hrec.
    split; [exact Hrec |].
    intros env' md' qc' qf' qo' H. apply check_suppressed. fold call in Hrec.
    rewrite Hrec, (Hperm _ _ H), elem_of_union, elem_of_singleton. by left.
  - intros env query this queryFields Hfields Hnotified.
    destruct (truthy (Query._conditions query)) eqn:Htruthy.
    2: { exfalso. apply Hnotified. unfold checkQueryFn. by rewrite Htruthy. }
    destruct (decide (queryFields = [])) as [-> | Hne].
    { exfalso. apply Hnotified. unfold checkQueryFn. by rewrite Htruthy, Hfields. }
    pose proof (checkQueryFn_run env query this queryFields Htruthy Hfields Hne) as Hrun.
    cbv zeta in Hrun.
    set (metadata := result (getMetadata (Query.model query)) this) in *.
    set (this1 := exec (getMetadata (Query.model query)) this) in *.
    set (fieldCall := check FieldCheck env metadata (Query._conditions query) queryFields
                        (Query.options query)) in *.
    set (indexCall := check IndexCheck env metadata (Query._conditions query) queryFields
                        (Query.options query)) in *.
    assert (Hexec : exec (checkQueryFn env query) this = exec indexCall (exec fieldCall this1)).
    { unfold exec at 1. by rewrite Hrun. }
    assert (Hevents : events (checkQueryFn env query) this
              = events fieldCall this1 ++ events indexCall (exec fieldCall this1)
                ++ [NextCalled None]).
    { unfold events at 1. by rewrite Hrun. }
    rewrite Hexec. rewrite Hevents, !notifications_app in Hnotified.
    destruct (decide (notifications (events fieldCall this1) = 0)) as [Hzero | Hfield].
    + exists IndexCheck. subst indexCall. rewrite check_records_digest.
      * rewrite elem_of_union, elem_of_singleton. by left.
      * intros Hindex. apply Hnotified. by rewrite Hzero, Hindex.
    + exists FieldCheck. subst indexCall fieldCall.
      rewrite check_other_warned by done. rewrite check_records_digest by exact Hfield.
      rewrite elem_of_union, elem_of_singleton. by left.
Qed.

(** ** The default configuration *)

Lemma failures_app evs1 evs2 : failures (evs1 ++ evs2) = failures evs1 ++ failures evs2.
Proof. unfold failures. apply omap_app. Qed.

(** Without a failure message for a check, the check signals no failure. *)
Lemma check_no_failure c env md qc qf qo this :
  guarded (shouldThrow env this) (throwMessageOf c this) = None →
  failures (events (check c env md qc qf qo) this) = [].
Proof.
  intros Hthrow. unfold events. rewrite check_run, Hthrow.
  destruct (violates _ _ _ _); [| reflexivity].
  unfold warnBranch. destruct (guarded (shouldWarn env this) _); [| reflexivity].
  destruct (bool_decide _); reflexivity.
Qed.

(** The hook signals no failure and keeps the options when neither check
    can signal one. *)
Lemma checkQueryFn_no_failure env query this :
  shouldThrow env this = false →
  failures (events (checkQueryFn env query) this) = []
  ∧ options (exec (checkQueryFn env query) this) = options this.
Proof.
  intros Hthrow. unfold checkQueryFn.
  destruct (negb (truthy _)); [done |].
  destruct (getRootQueryFields _) as [queryFields |]; [| done].
  destruct (length queryFields =? 0)%nat; [done |].
  destruct (getMetadata_frame (Query.model query) this) as [Hopt0 Hev0].
  revert Hopt0 Hev0. unfold exec, events, run, mbind, M_bind.
  destruct (getMetadata (Query.model query) this) as [[metadata this1] evs1]. simpl.
  intros Hopt0 ->.
  assert (Hthrow1 : shouldThrow env this1 = false).
  { unfold shouldThrow in *. by rewrite Hopt0. }
  pose proof (check_no_failure FieldCheck env metadata (Query._conditions query) queryFields
                (Query.options query) this1) as Hf1.
  pose proof (check_frame FieldCheck env metadata (Query._conditions query) queryFields
                (Query.options query) this1) as [Hopt1 _].
  unfold exec, events, run in Hf1, Hopt1. simpl in Hf1, Hopt1.
  destruct (checkField env metadata _ queryFields _ this1) as [[[] this2] evs2]. simpl in *.
  assert (Hthrow2 : shouldThrow env this2 = false).
  { unfold shouldThrow in *. by rewrite Hopt1, Hopt0. }
  pose proof (check_no_failure IndexCheck env metadata (Query._conditions query) queryFields
                (Query.options query) this2) as Hf2.
  pose proof (check_frame IndexCheck env metadata (Query._conditions query) queryFields
                (Query.options query) this2) as [Hopt2 _].
  unfold exec, events, run in Hf2, Hopt2. simpl in Hf2, Hopt2.
  destruct (checkIndex env metadata _ queryFields _ this2) as [[[] this3] evs3]. simpl in *.
  unfold next, emit. simpl. rewrite !failures_app, Hf1, Hf2.
  - split; [reflexivity |]. by rewrite Hopt2, Hopt1, Hopt0.
  - unfold guarded. by rewrite Hthrow2.
  - unfold guarded. by rewrite Hthrow1.
Qed.

(** C10: an instance that has the options of [new SafeQuery()] signals no
    failure.  [shouldThrow()] is false and neither handler has a
    [throwMessage], while [shouldWarn()] is true and both handlers have their
    default [warnAction]: for every query either check does what its warn
    branch does, signals neither [InvalidField] nor [LowIndexCoverage], and
    keeps these options; so does the pre hook that runs both. *)
Theorem default_options_never_fail (this : t) :
  options this = options (new None) →
  (∀ env, shouldThrow env this = false ∧ shouldWarn env this = true)
  ∧ throwMessageOf FieldCheck this = None
  ∧ throwMessageOf IndexCheck this = None
  ∧ warnActionOf FieldCheck this = Some defaultFieldWarningHandler
  ∧ warnActionOf IndexCheck this = Some defaultIndexWarningHandler
  ∧ (∀ c env modelMetadata queryConditions queryFields queryOptions,
       let call := check c env modelMetadata queryConditions queryFields queryOptions in
       failures (events call this) = []
       ∧ (violates c this modelMetadata queryFields = true →
          run call this
          = warnBranch c env modelMetadata queryConditions queryFields queryOptions this)
       ∧ options (exec call this) = options this)
  ∧ (∀ env query,
       failures (events (checkQueryFn env query) this) = []
       ∧ options (exec (checkQueryFn env query) this) = options this).
Proof.
  intros Hopt.
  assert (Hthrow : ∀ env, shouldThrow env this = false).
  { intros env. unfold shouldThrow. by rewrite Hopt. }
  split; [intros env; split; [apply Hthrow | unfold shouldWarn; by rewrite Hopt] |].
  split; [unfold throwMessageOf; by rewrite Hopt |].
  split; [unfold throwMessageOf; by rewrite Hopt |].
  split; [unfold warnActionOf; by rewrite Hopt |].
  split; [unfold warnActionOf; by rewrite Hopt |].
  split.
  - intros c env md qc qf qo call. subst call.
    assert (Hguard : guarded (shouldThrow env this) (throwMessageOf c this) = None).
    { unfold guarded. by rewrite Hthrow. }
    split; [by apply check_no_failure |]. split; [| apply check_frame].
    intros Hv. by rewrite check_run, Hv, Hguard.
  - intros env query. apply checkQueryFn_no_failure, Hthrow.
Qed.

Lemma default_options_never_fail_witness :
  options (new None) = options (new None)
  ∧ failures (events (checkQueryFn ∅ {| Query._conditions := sampleConditions;
                                         Query.model := sampleModel;
                                         Query.options := Undefined |}) (new None)) = [].
Proof.
  split; [reflexivity |].
  exact (proj1 (proj2 (proj2 (proj2 (proj2 (proj2 (proj2
           (default_options_never_fail (new None) eq_refl)))))) ∅ _)).
Defined.

(** ** The examples of the specification *)

(** SHA-1 test vectors, base64 encoded. *)
Example sha1_base64_abc : Crypto.sha1_base64 "abc" = "qZk+NkcGgWq6PiVxeFDCbJzQ2J0=".
Proof. vm_compute. reflexivity. Qed.

Example sha1_base64_empty : Crypto.sha1_base64 "" = "2jmj7l5rSw0yVb/vlWAYkK/YBwk=".
Proof. vm_compute. reflexivity. Qed.

Example throttleDigest_sample :
  sortBy ["createdAt"; "_id"] = ["_id"; "createdAt"]
  ∧ hash ["createdAt"; "_id"] = "gW7kJDekUXLNNh7LUIsbXsa9RPM="
  ∧ throttleDigest ["createdAt"; "_id"] = "9RPM=".
Proof. vm_compute. auto. Qed.

Example getNonExistingFields_some :
  getNonExistingFields ["_id"; "createdAt"] {["_id"]} = ["createdAt"].
Proof. vm_compute. reflexivity. Qed.

Example getNonExistingFields_none :
  getNonExistingFields ["_id"; "createdAt"] (list_to_set ["_id"; "createdAt"; "customer"]) = [].
Proof. vm_compute. reflexivity. Qed.

Example isCoveredByIndex_examples :
  isCoveredByIndex ["_id"; "createdAt"] [["createdAt"; "_id"]] (literal 1 0) = true
  ∧ isCoveredByIndex ["_id"; "createdAt"] [["_id"]] (literal 1 0) = false
  ∧ isCoveredByIndex ["_id"; "createdAt"] [["_id"]] (literal 1 (-1)) = true
  ∧ isCoveredByIndex ["customer"] [["customer.name"; "customer.id"]] (literal 1 0) = true.
Proof. vm_compute. auto. Qed.

(** The query [{name: "x", uncoveredField: true}] on the sample collection
    with the default options: the field check notifies once, the index check
    finds a coverage of 1/2 and accepts it, and the query goes on. *)
Example checkQueryFn_sample :
  events (checkQueryFn ∅ {| Query._conditions := sampleConditions;
                             Query.model := sampleModel;
                             Query.options := Undefined |}) (new None)
  = [WarnActionCalled FieldCheck
       {| ViolatingQuery.modelName := "project";
          ViolatingQuery.violatingFields := ["uncoveredField"];
          ViolatingQuery.comment := Undefined;
          ViolatingQuery.fullQuery := sampleConditions |}
       "Invalid query fields in project: uncoveredField";
     NextCalled None].
Proof. vm_compute. reflexivity. Qed.

(** * Further properties *)

(** ** The extractor beyond well-formed filters *)

Lemma scanSubConditions_None (rec : Value → option (list string)) subs :
  Forall (λ sub, rec sub = None ↔ raisesTypeError sub) subs →
  ∀ queryFields,
    scanSubConditions rec subs queryFields = None
    ↔ ∃ sub, sub ∈ subs ∧ raisesTypeError sub.
Proof.
  induction 1 as [| sub subs Hsub _ IH]; intros queryFields; simpl.
  - split; [discriminate |]. intros (sub & Hin & _). by apply elem_of_nil in Hin.
  - destruct (rec sub) as [fs |] eqn:Hrec.
    + rewrite IH. split.
      * intros (sub' & Hin & Hr). exists sub'. split; [by apply list_elem_of_further | done].
      * intros (sub' & Hin & Hr). apply elem_of_cons in Hin as [-> | Hin]; [| by exists sub'].
        apply Hsub in Hr. congruence.
    + split; [| done]. intros _. exists sub. split; [apply list_elem_of_here | by apply Hsub].
Qed.

Lemma raisesTypeError_cons key expression entries :
  raisesTypeError (Object ((key, expression) :: entries))
  ↔ (key ∈ SUPPORTED_QUERY_SELECTORS
     ∧ ∃ subs sub, expression = Array subs ∧ sub ∈ subs ∧ raisesTypeError sub)
    ∨ raisesTypeError (Object entries).
Proof.
  split.
  - inversion 1 as [| | ? k subs sub Hin Hsup Hsub Hr]; subst.
    apply elem_of_cons in Hin as [[= -> <-] | Hin].
    + left. split; [done |]. by exists subs, sub.
    + right. by eapply raises_combinator.
  - intros [(Hsup & subs & sub & -> & Hsub & Hr) | Hr].
    + eapply raises_combinator; [apply list_elem_of_here | done ..].
    + inversion Hr as [| | ? k subs sub Hin Hsup Hsub Hr']; subst.
      eapply raises_combinator; [by apply list_elem_of_further | done ..].
Qed.

Lemma scanEntries_None entries :
  Forall (λ kv : string * Value,
            ∀ subs, snd kv = Array subs →
              Forall (λ sub, getRootQueryFields sub = None ↔ raisesTypeError sub) subs)
    entries →
  ∀ queryFields,
    scanEntries getRootQueryFields entries queryFields = None
    ↔ raisesTypeError (Object entries).
Proof.
  induction 1 as [| [key expression] rest Hsubs _ IH]; intros queryFields.
  - split; [discriminate |]. inversion 1 as [| | ? k subs sub Hin]; subst.
    by apply elem_of_nil in Hin.
  - simpl in Hsubs. cbn [scanEntries]. rewrite raisesTypeError_cons.
    assert (Hskip : ¬ (key ∈ SUPPORTED_QUERY_SELECTORS
                       ∧ ∃ subs sub, expression = Array subs ∧ sub ∈ subs
                           ∧ raisesTypeError sub) →
      ∀ queryFields',
        scanEntries getRootQueryFields rest queryFields' = None
        ↔ (key ∈ SUPPORTED_QUERY_SELECTORS
           ∧ ∃ subs sub, expression = Array subs ∧ sub ∈ subs ∧ raisesTypeError sub)
          ∨ raisesTypeError (Object rest)).
    { intros Hnot queryFields'. rewrite IH. tauto. }
    destruct (includes FIELDS_TO_IGNORE key) eqn:Hign.
    { apply includes_true in Hign. apply Hskip. intros [Hsup _].
      by apply ignored_not_supported in Hign. }
    destruct (includes SUPPORTED_QUERY_SELECTORS key) eqn:Hsup; simpl.
    + apply includes_true in Hsup.
      pose proof (supported_startsWith key Hsup) as Hop.
      destruct expression as [| | b | x | s | subs | es]; simpl;
        try (rewrite Hop; simpl; apply Hskip; intros (_ & subs & sub & [=] & _)).
      pose proof (scanSubConditions_None getRootQueryFields subs (Hsubs subs eq_refl)
                    queryFields) as Hsub.
      destruct (scanSubConditions getRootQueryFields subs queryFields) as [fields1 |].
      * rewrite IH. split; [by right |]. intros [(_ & subs' & sub & [= <-] & Hin & Hr) | Hr];
          [| done]. assert (Some fields1 = None) as H by (apply Hsub; by exists sub).
        discriminate H.
      * split; [| done]. intros _. left. split; [done |].
        destruct (proj1 Hsub eq_refl) as (sub & Hin & Hr). by exists subs, sub.
    + apply includes_false in Hsup.
      destruct (negb (startsWith key "$")); apply Hskip; by intros [Hsup' _].
Qed.

Lemma getRootQueryFields_None v : getRootQueryFields v = None ↔ raisesTypeError v.
Proof.
  enough (H : (getRootQueryFields v = None ↔ raisesTypeError v)
              ∧ ∀ subs, v = Array subs →
                  Forall (λ sub, getRootQueryFields sub = None ↔ raisesTypeError sub) subs)
    by apply H.
  induction v as [| | b | x | s | elems IH | entries IH] using Value_nested_ind.
  - split; [| intros ? [=]]. split; [constructor | done].
  - split; [| intros ? [=]]. split; [constructor | done].
  - split; [| intros ? [=]]. split; [done | inversion 1].
  - split; [| intros ? [=]]. split; [done | inversion 1].
  - split; [| intros ? [=]]. split; [done | inversion 1].
  - split; [split; [done | inversion 1] |]. intros subs [= <-].
    eapply Forall_impl; [exact IH |]. by intros sub [Hsub _].
  - split; [| intros ? [=]]. cbn [getRootQueryFields]. apply scanEntries_None.
    eapply Forall_impl; [exact IH |]. intros [key expression] [_ Hsubs]. exact Hsubs.
Qed.

(** X1: [getRootQueryFields] raises a [TypeError] exactly on [undefined],
    on [null] and on an object that holds one of them in the sequence of a
    supported combinator at some depth; it returns on every other value. *)
Theorem getRootQueryFields_raises_TypeError (queryConditions : Value) :
  (getRootQueryFields queryConditions = None ↔ raisesTypeError queryConditions)
  ∧ (is_Some (getRootQueryFields queryConditions) ↔ ¬ raisesTypeError queryConditions).
Proof.
  pose proof (getRootQueryFields_None queryConditions) as H.
  split; [exact H |]. rewrite <- H, <- not_eq_None_Some. tauto.
Qed.

(** ** The order of the extracted fields *)

Lemma set_add_elem s x : x ∈ s → set_add s x = s.
Proof. intros H. unfold set_add. by rewrite (proj2 (set_has_true s x) H). Qed.

Lemma set_add_not_elem s x : x ∉ s → set_add s x = s ++ [x].
Proof. intros H. unfold set_add. by rewrite (proj2 (set_has_false s x) H). Qed.

(** Adding the elements of [new Set(l)] one by one is adding those of [l]. *)
Lemma fold_set_add_set_of_array l s :
  fold_left set_add (set_of_array l) s = fold_left set_add l s.
Proof.
  unfold set_of_array. induction l as [| x l IH] using rev_ind; [reflexivity |].
  rewrite !fold_left_app. simpl.
  destruct (decide (x ∈ fold_left set_add l [])) as [Hin | Hnot].
  - rewrite (set_add_elem _ _ Hin), IH. symmetry. apply set_add_elem.
    apply elem_of_fold_set_add. right.
    apply elem_of_fold_set_add in Hin as [Hin | Hin]; [by apply elem_of_nil in Hin | done].
  - rewrite (set_add_not_elem _ _ Hnot), fold_left_app, IH. reflexivity.
Qed.

Lemma scanSubConditions_order subs :
  Forall (λ sub, getRootQueryFields sub = Some (set_of_array (fieldOccurrences sub))) subs →
  ∀ queryFields,
    scanSubConditions getRootQueryFields subs queryFields
    = Some (fold_left set_add (List.flat_map fieldOccurrences subs) queryFields).
Proof.
  induction 1 as [| sub subs Hsub _ IH]; intros queryFields; simpl; [reflexivity |].
  by rewrite Hsub, IH, fold_left_app, fold_set_add_set_of_array.
Qed.

Lemma fieldOccurrences_Object entries :
  fieldOccurrences (Object entries) = List.flat_map entryOccurrences entries.
Proof. reflexivity. Qed.

Lemma scanEntries_order entries :
  Forall (λ kv : string * Value,
            fst kv ∈ SUPPORTED_QUERY_SELECTORS →
            ∀ subs, snd kv = Array subs →
              Forall (λ sub, getRootQueryFields sub
                             = Some (set_of_array (fieldOccurrences sub))) subs)
    entries →
  ∀ queryFields,
    scanEntries getRootQueryFields entries queryFields
    = Some (fold_left set_add (List.flat_map entryOccurrences entries) queryFields).
Proof.
  induction 1 as [| [key expression] rest Hsubs _ IH]; intros queryFields; [reflexivity |].
  simpl in Hsubs. cbn [scanEntries List.flat_map]. rewrite fold_left_app.
  assert (Hocc : entryOccurrences (key, expression)
    = if includes FIELDS_TO_IGNORE key then []
      else if includes SUPPORTED_QUERY_SELECTORS key then
        match expression with
        | Array subs => List.flat_map fieldOccurrences subs
        | _ => []
        end
      else if startsWith key "$" then []
      else [split_head key "."]) by reflexivity.
  rewrite Hocc. clear Hocc.
  destruct (includes FIELDS_TO_IGNORE key); [apply IH |].
  destruct (includes SUPPORTED_QUERY_SELECTORS key) eqn:Hsup; simpl.
  - apply includes_true in Hsup. pose proof (supported_startsWith key Hsup) as Hop.
    destruct expression as [| | b | x | s | subs | es]; simpl;
      try (rewrite Hop; simpl; apply IH).
    by rewrite (scanSubConditions_order subs (Hsubs Hsup subs eq_refl)), IH.
  - destruct (startsWith key "$"); simpl; apply IH.
Qed.

Lemma is_filter_first_occurrence v :
  is_filter v = true → getRootQueryFields v = Some (set_of_array (fieldOccurrences v)).
Proof.
  enough (H : (is_filter v = true →
               getRootQueryFields v
               = Some (set_of_array (fieldOccurrences v)))
              ∧ ∀ subs, v = Array subs →
                  Forall (λ sub, is_filter sub = true →
                                 getRootQueryFields sub
                                 = Some (set_of_array (fieldOccurrences sub))) subs)
    by apply H.
  induction v as [| | b | x | s | elems IH | entries IH]
    using Value_nested_ind;
    try solve [split; [discriminate | intros ? [=]]].
  - split; [discriminate |]. intros subs [= <-].
    eapply Forall_impl; [exact IH |]. by intros sub [Hsub _].
  - split; [| intros ? [=]].
    intros Hfilter. cbn [is_filter] in Hfilter. rewrite forallb_forall in Hfilter.
    cbn [getRootQueryFields]. rewrite fieldOccurrences_Object. apply scanEntries_order.
    rewrite Forall_forall in IH. apply Forall_forall.
    intros [key expression] Hin Hsup subs Hexpr. simpl in *. subst expression.
    specialize (Hfilter (key, Array subs) (proj1 (list_elem_of_In _ _) Hin)).
    simpl in Hfilter. apply includes_true in Hsup. rewrite Hsup in Hfilter.
    rewrite forallb_forall in Hfilter.
    destruct (IH (key, Array subs) Hin) as [_ Hsubs]. specialize (Hsubs subs eq_refl).
    rewrite Forall_forall in Hsubs. apply Forall_forall. intros sub Hsub.
    apply (Hsubs sub Hsub), Hfilter. by apply list_elem_of_In.
Qed.


(** X2: on a filter, [getRootQueryFields] returns the field names in the
    order in which the filter mentions them first, combinators un-nested in
    place: the list of all field occurrences with the later duplicates
    removed. *)
Theorem getRootQueryFields_first_occurrence_order (queryConditions : Value) :
  is_filter queryConditions = true →
  getRootQueryFields queryConditions
  = Some (set_of_array (fieldOccurrences queryConditions)).
Proof. apply is_filter_first_occurrence. Qed.

Lemma getRootQueryFields_first_occurrence_order_witness :
  is_filter sampleFilter = true
  ∧ getRootQueryFields sampleFilter = Some (set_of_array (fieldOccurrences sampleFilter)).
Proof.
  split; [reflexivity |].
  exact (getRootQueryFields_first_occurrence_order sampleFilter eq_refl).
Defined.

Lemma startsWith_topLevelName key name :
  topLevelName key name → startsWith key "$" = false → startsWith name "$" = false.
Proof.
  intros [_ [-> | [rest ->]]] Hop; [exact Hop |]. by destruct name.
Qed.

Lemma reachableField_name v name :
  reachableField v name →
  startsWith name "$" = false ∧ ∀ before after, name ≠ before +:+ String "." after.
Proof.
  induction 1 as [entries key expression name Hin Hign Hop Htop | ]; [| assumption].
  split; [by eapply startsWith_topLevelName | apply Htop].
Qed.

(** X3: the names extracted from a filter are top-level field names: none
    holds a ['.'], none begins with ['$'], and each is the first segment of a
    key that occurs in the filter. *)
Theorem getRootQueryFields_names (queryConditions : Value) (fields : list string)
    (name : string) :
  is_filter queryConditions = true →
  getRootQueryFields queryConditions = Some fields →
  name ∈ fields →
  startsWith name "$" = false
  ∧ (∀ before after, name ≠ before +:+ String "." after)
  ∧ reachableField queryConditions name.
Proof.
  intros Hfilter Hfields Hname.
  destruct (is_filter_extracts _ Hfilter) as (fields' & Hrun & _ & Hmem).
  rewrite Hfields in Hrun. injection Hrun as <-. apply Hmem in Hname.
  destruct (reachableField_name _ _ Hname) as [Hop Hdot]. auto.
Qed.

Lemma getRootQueryFields_names_witness :
  is_filter sampleFilter = true
  ∧ startsWith "customer" "$" = false
  ∧ reachableField sampleFilter "customer".
Proof.
  assert (Hin : "customer" ∈ ["customer"; "createdAt"; "location"; "status"; "batch"])
    by apply list_elem_of_here.
  destruct (getRootQueryFields_names sampleFilter _ "customer" eq_refl eq_refl Hin)
    as (Hop & _ & Hreach).
  split; [reflexivity |]. split; [exact Hop | exact Hreach].
Defined.

(** ** Undeclared fields *)

Lemma elem_of_getNonExistingFields queryFields modelFields f :
  f ∈ getNonExistingFields queryFields modelFields ↔ f ∈ queryFields ∧ f ∉ modelFields.
Proof.
  unfold getNonExistingFields. rewrite list_elem_of_In, filter_In, <- list_elem_of_In.
  by rewrite negb_true_iff, bool_decide_eq_false.
Qed.

Lemma getNonExistingFields_nil queryFields modelFields :
  getNonExistingFields queryFields modelFields = [] ↔ ∀ f, f ∈ queryFields → f ∈ modelFields.
Proof.
  split.
  - intros Hnil f Hf. destruct (decide (f ∈ modelFields)) as [| Hnot]; [done |].
    assert (H : f ∈ getNonExistingFields queryFields modelFields)
      by by apply elem_of_getNonExistingFields.
    rewrite Hnil in H. by apply elem_of_nil in H.
  - intros Hall. destruct (getNonExistingFields queryFields modelFields) as [| f l] eqn:E;
      [done |].
    assert (H : f ∈ getNonExistingFields queryFields modelFields)
      by (rewrite E; apply list_elem_of_here).
    apply elem_of_getNonExistingFields in H as [Hf Hnot]. by apply Hall in Hf.
Qed.

(** X4: [getNonExistingFields] keeps, in their order, the query fields that
    are not model fields.  It is empty exactly when every query field is a
    model field, and then [checkField] returns at once: no callback is
    called and the instance is as it was. *)
Theorem getNonExistingFields_undeclared
    (queryFields : list string) (modelFields : gset string) :
  (∀ f, f ∈ getNonExistingFields queryFields modelFields
        ↔ f ∈ queryFields ∧ f ∉ modelFields)
  ∧ getNonExistingFields queryFields modelFields `sublist_of` queryFields
  ∧ (getNonExistingFields queryFields modelFields = []
     ↔ ∀ f, f ∈ queryFields → f ∈ modelFields)
  ∧ ∀ env modelMetadata queryConditions queryOptions this,
      ModelMetadata.fields modelMetadata = modelFields →
      (∀ f, f ∈ queryFields → f ∈ modelFields) →
      run (checkField env modelMetadata queryConditions queryFields queryOptions) this
      = (tt, this, []).
Proof.
  split; [intros f; apply elem_of_getNonExistingFields |]. split.
  - unfold getNonExistingFields.
    induction queryFields as [| f queryFields IH]; simpl; [constructor |].
    destruct (negb _); by constructor.
  - split; [apply getNonExistingFields_nil |].
    intros env modelMetadata queryConditions queryOptions this <- Hall.
    apply getNonExistingFields_nil in Hall. unfold checkField. by rewrite Hall.
Qed.

(** ** Index coverage: what the result depends on *)

Lemma isCoveredByIndex_app queryFields indices1 indices2 minCoverage :
  isCoveredByIndex queryFields (indices1 ++ indices2) minCoverage
  = isCoveredByIndex queryFields indices1 minCoverage
    || isCoveredByIndex queryFields indices2 minCoverage.
Proof. rewrite !isCoveredByIndex_existsb. apply existsb_app. Qed.

(** X5: a query is covered by a list of indexes exactly when it is covered
    by one of its parts: more indexes never turn a covered query into an
    uncovered one, and the order in which the indexes are declared does not
    change the result. *)
Theorem isCoveredByIndex_indices
    (queryFields : list string) (indices1 indices2 : list (list string))
    (minCoverage : number) :
  isCoveredByIndex queryFields (indices1 ++ indices2) minCoverage
  = isCoveredByIndex queryFields indices1 minCoverage
    || isCoveredByIndex queryFields indices2 minCoverage
  ∧ (isCoveredByIndex queryFields indices1 minCoverage = true →
     isCoveredByIndex queryFields (indices1 ++ indices2) minCoverage = true
     ∧ isCoveredByIndex queryFields (indices2 ++ indices1) minCoverage = true)
  ∧ (indices1 ≡ₚ indices2 →
     isCoveredByIndex queryFields indices1 minCoverage
     = isCoveredByIndex queryFields indices2 minCoverage).
Proof.
  split; [apply isCoveredByIndex_app |]. split.
  - intros H. rewrite !isCoveredByIndex_app, H. by rewrite orb_true_r.
  - induction 1 as [| index l1 l2 _ IH | index1 index2 l | l1 l2 l3 _ IH1 _ IH2].
    + reflexivity.
    + by rewrite (isCoveredByIndex_app _ [index] l1), (isCoveredByIndex_app _ [index] l2), IH.
    + rewrite (isCoveredByIndex_app _ [index2] (index1 :: l)),
        (isCoveredByIndex_app _ [index1] l), (isCoveredByIndex_app _ [index1] (index2 :: l)),
        (isCoveredByIndex_app _ [index2] l).
      rewrite !orb_assoc. f_equal. apply orb_comm.
    + by rewrite IH1.
Qed.

(** X6: the order of the query fields does not matter: two arrangements of
    the same fields are covered by the same index lists. *)
Theorem isCoveredByIndex_queryFields_order
    (queryFields1 queryFields2 : list string) (indices : list (list string))
    (minCoverage : number) :
  queryFields1 ≡ₚ queryFields2 →
  isCoveredByIndex queryFields1 indices minCoverage
  = isCoveredByIndex queryFields2 indices minCoverage.
Proof.
  intros Hperm. rewrite !isCoveredByIndex_existsb.
  rewrite (Permutation_length Hperm).
  induction indices as [| index indices IH]; simpl; [reflexivity |].
  rewrite IH. f_equal. f_equal. apply coveredFields_ext.
  intros x. apply set_has_set_of_array. intros y. by rewrite Hperm.
Qed.

Lemma isCoveredByIndex_queryFields_order_witness :
  ["a"; "b"] ≡ₚ ["b"; "a"]
  ∧ isCoveredByIndex ["a"; "b"] [["b"]; ["c"; "a"]] (literal 1 (-1))
    = isCoveredByIndex ["b"; "a"] [["b"]; ["c"; "a"]] (literal 1 (-1)).
Proof.
  assert (H : ["a"; "b"] ≡ₚ ["b"; "a"]) by apply Permutation_swap.
  split; [exact H |].
  exact (isCoveredByIndex_queryFields_order _ _ [["b"]; ["c"; "a"]] (literal 1 (-1)) H).
Defined.

Lemma split_head_idemp s c : split_head (split_head s c) c = split_head s c.
Proof.
  induction s as [| a s IH]; simpl; [reflexivity |].
  destruct (Ascii.eqb a c) eqn:E; simpl; [reflexivity |]. by rewrite E, IH.
Qed.

Lemma coveredFields_top_level s index acc :
  coveredFields s (map (λ f, split_head f ".") index) acc = coveredFields s index acc.
Proof.
  revert acc. induction index as [| f index IH]; intros acc; simpl; [reflexivity |].
  rewrite split_head_idemp. destruct (set_has s _); [apply IH | reflexivity].
Qed.

(** X7: only the top-level names of the index fields count: an index on
    nested paths covers a query as the index on the first segments of these
    paths does. *)
Theorem isCoveredByIndex_top_level_names
    (queryFields : list string) (indices : list (list string)) (minCoverage : number) :
  isCoveredByIndex queryFields (map (map (λ f, split_head f ".")) indices) minCoverage
  = isCoveredByIndex queryFields indices minCoverage.
Proof.
  rewrite !isCoveredByIndex_existsb.
  induction indices as [| index indices IH]; simpl; [reflexivity |].
  by rewrite coveredFields_top_level, IH.
Qed.

(** ** The minimum coverage in use *)

(** X8: [checkIndex] clamps the configured minimum coverage: a positive
    number is used as it is, and every other one (zero, negative, NaN) counts
    as [0]; the coverage is never compared with NaN or with a negative
    number. *)
Theorem coverageThreshold_clamps (this : t) :
  let minCoverage :=
    IndexCheckHandler.minCoverage (FullSafeQueryOptions.checkIndex (options this)) in
  (isPositive minCoverage = true → coverageThreshold this = minCoverage)
  ∧ (isPositive minCoverage = false → coverageThreshold this = zero)
  ∧ (isPositive (coverageThreshold this) = true ∨ coverageThreshold this = zero).
Proof.
  intros minCoverage. unfold coverageThreshold. fold minCoverage.
  destruct minCoverage as [[] | [] | | [] m e]; cbn;
    (split; [| split]); try discriminate; try reflexivity; auto.
Qed.

(** ** Coverage is never negative *)

Section Rounding.

Local Open Scope Z_scope.

Lemma shr_1_nonneg mrs : 0 ≤ shr_m mrs → 0 ≤ shr_m (shr_1 mrs).
Proof. destruct mrs as [[| [p | p |] | p] r s]; simpl; lia. Qed.

Lemma iter_pos_shr_1_nonneg n mrs : 0 ≤ shr_m mrs → 0 ≤ shr_m (SpecFloat.iter_pos shr_1 n mrs).
Proof.
  revert mrs. induction n as [n IH | n IH |]; intros mrs H; simpl.
  - apply IH, IH, shr_1_nonneg, H.
  - apply IH, IH, H.
  - apply shr_1_nonneg, H.
Qed.

Lemma shr_fexp_nonneg m e l :
  0 ≤ m → 0 ≤ shr_m (fst (shr_fexp prec emax m e l)).
Proof.
  intros H. unfold shr_fexp, shr.
  assert (H0 : 0 ≤ shr_m (shr_record_of_loc m l)) by by destruct l as [| []].
  destruct (_ - e); simpl; [done | | done]. by apply iter_pos_shr_1_nonneg.
Qed.

Lemma round_nearest_even_nonneg m l : 0 ≤ m → 0 ≤ round_nearest_even m l.
Proof. intros H. destruct l as [| []]; simpl; [done | | done | lia]. destruct (Z.even m); lia. Qed.

(** Rounding a mantissa that is not negative gives a number that is not
    negative, and never NaN. *)
Lemma binary_round_aux_nonNegative m e l :
  0 ≤ m → nonNegative (binary_round_aux prec emax false m e l) = true.
Proof.
  intros H. unfold binary_round_aux.
  pose proof (shr_fexp_nonneg m e l H) as H1.
  destruct (shr_fexp prec emax m e l) as [mrs' e']. simpl in H1.
  pose proof (shr_fexp_nonneg _ e' loc_Exact
                (round_nearest_even_nonneg _ (loc_of_shr_record mrs') H1)) as H2.
  destruct (shr_fexp prec emax _ e' loc_Exact) as [mrs'' e'']. simpl in H2.
  destruct (shr_m mrs'') as [| p | p]; [done | | lia].
  by destruct (e'' <=? emax - prec).
Qed.

Lemma of_nat_nonNegative n : nonNegative (of_nat n) = true.
Proof.
  unfold of_nat, binary_normalize. destruct (Z.of_nat n) as [| p | p] eqn:E; [done | | lia].
  unfold binary_round. destruct (shl_align _ _ _) as [mz ez].
  by apply binary_round_aux_nonNegative.
Qed.

Lemma digits2_pos_bound p k : 0 ≤ k → Zpos p < 2 ^ k → Zpos (digits2_pos p) ≤ k.
Proof.
  revert k. induction p as [p IH | p IH |]; intros k Hk Hp; simpl.
  - assert (k ≠ 0) by (intros ->; simpl in Hp; lia).
    replace k with (Z.succ (k - 1)) in Hp by lia. rewrite Z.pow_succ_r in Hp by lia.
    specialize (IH (k - 1)). lia.
  - assert (k ≠ 0) by (intros ->; simpl in Hp; lia).
    replace k with (Z.succ (k - 1)) in Hp by lia. rewrite Z.pow_succ_r in Hp by lia.
    specialize (IH (k - 1)). lia.
  - assert (k ≠ 0) by (intros ->; simpl in Hp; lia). lia.
Qed.

Lemma digits2_pos_iter_xO p k :
  Zpos (digits2_pos (Pos.iter xO p k)) = Zpos (digits2_pos p) + Zpos k.
Proof.
  induction k as [| k IH] using Pos.peano_ind; simpl; [lia |].
  rewrite Pos.iter_succ. simpl. lia.
Qed.

(** A mantissa that is already in its place is kept by the rounding. *)
Lemma binary_round_aux_exact m e :
  fexp prec emax (Zpos (digits2_pos m) + e) = e →
  e ≤ emax - prec →
  binary_round_aux prec emax false (Zpos m) e loc_Exact = S754_finite false m e.
Proof.
  intros Hfexp He. unfold binary_round_aux, shr_fexp. simpl Zdigits2.
  rewrite Hfexp, Z.sub_diag. simpl. rewrite Hfexp, Z.sub_diag. simpl.
  by rewrite (proj2 (Z.leb_le _ _) He).
Qed.

(** The integers below 2^53 are numbers of their own. *)
Lemma of_nat_finite n :
  (0 < n)%nat → Z.of_nat n < 2 ^ 53 → ∃ m e, of_nat n = S754_finite false m e.
Proof.
  intros Hpos Hbound. unfold of_nat, binary_normalize.
  destruct (Z.of_nat n) as [| p | p] eqn:E; [lia | | lia].
  pose proof (digits2_pos_bound p 53 ltac:(lia) Hbound) as Hd.
  unfold binary_round, shl_align.
  assert (Hfexp : fexp prec emax (Zpos (digits2_pos p) + 0) = Zpos (digits2_pos p) - 53).
  { unfold fexp, emin, prec, emax. lia. }
  rewrite Hfexp. rewrite Z.sub_0_r.
  destruct (Zpos (digits2_pos p) - 53) as [| k | k] eqn:Ek; [| lia |].
  - exists p, 0. apply binary_round_aux_exact; [| unfold emax, prec; lia].
    unfold fexp, emin, prec, emax. lia.
  - exists (Pos.iter xO p k), (Zneg k). apply binary_round_aux_exact; [| unfold emax, prec; lia].
    rewrite digits2_pos_iter_xO. unfold fexp, emin, prec, emax. lia.
Qed.

Lemma div_nonNegative x m e :
  nonNegative x = true → nonNegative (div x (S754_finite false m e)) = true.
Proof.
  intros Hx. destruct x as [[] | [] | | [] mx ex]; try done. unfold div, SFdiv.
  destruct (SFdiv_core_binary _ _ _ _ _ _) as [[mz ez] lz] eqn:E. simpl.
  apply binary_round_aux_nonNegative.
  unfold SFdiv_core_binary in E.
  destruct (Z.div_eucl _ (Zpos m)) as [q r] eqn:Ediv. injection E as <- _ _.
  match type of Ediv with Z.div_eucl ?a _ = _ =>
    assert (Ha : 0 ≤ a); [| pose proof (Z.div_pos a (Zpos m) Ha ltac:(lia)) as Hq;
                             unfold Z.div in Hq; by rewrite Ediv in Hq] end.
  destruct (_ - _ - _) as [| s | s]; [lia | | lia]. apply Z.shiftl_nonneg. lia.
Qed.

Lemma geb_zero x : nonNegative x = true → geb x zero = true.
Proof. by destruct x as [[] | [] | | [] m e]. Qed.

End Rounding.

(** The coverage computed for an index is zero or above, and not NaN, when
    there are query fields. *)
Lemma meetsCoverage_zero coveredFieldCount totalFieldCount :
  0 < totalFieldCount → (Z.of_nat totalFieldCount < 2 ^ 53)%Z →
  meetsCoverage coveredFieldCount totalFieldCount zero = true.
Proof.
  intros Hpos Hbound. unfold meetsCoverage.
  destruct (of_nat_finite totalFieldCount Hpos Hbound) as (m & e & ->).
  apply geb_zero, div_nonNegative, of_nat_nonNegative.
Qed.

(** X9: a minimum coverage that is not positive (zero, negative or NaN)
    switches the index check off.  The threshold in use is then [0], which
    the coverage of any index meets: on a collection with an index, a query
    with fewer than 2^53 fields is covered, and [checkIndex] returns without
    a call, leaving the instance as it was. *)
Theorem checkIndex_off_without_positive_minCoverage
    (env : Ambient) (modelMetadata : ModelMetadata.t) (queryConditions : Value)
    (queryFields : list string) (queryOptions : Value) (this : t) :
  isPositive (IndexCheckHandler.minCoverage (FullSafeQueryOptions.checkIndex (options this)))
  = false →
  (Z.of_nat (length queryFields) < 2 ^ 53)%Z →
  (queryFields ≠ [] → ModelMetadata.indices modelMetadata ≠ [] →
   isCoveredByIndex queryFields (ModelMetadata.indices modelMetadata) (coverageThreshold this)
   = true)
  ∧ violates IndexCheck this modelMetadata queryFields = false
  ∧ run (checkIndex env modelMetadata queryConditions queryFields queryOptions) this
    = (tt, this, []).
Proof.
  intros Hoff Hbound.
  assert (Hzero : coverageThreshold this = zero).
  { unfold coverageThreshold.
    by destruct (IndexCheckHandler.minCoverage _) as [[] | [] | | [] m e]. }
  assert (Hcovered : queryFields ≠ [] → ModelMetadata.indices modelMetadata ≠ [] →
    isCoveredByIndex queryFields (ModelMetadata.indices modelMetadata) (coverageThreshold this)
    = true).
  { intros Hfields Hindices. rewrite Hzero, isCoveredByIndex_existsb.
    destruct (ModelMetadata.indices modelMetadata) as [| index indices]; [done |]. simpl.
    rewrite meetsCoverage_zero; [done | | done]. destruct queryFields; [done | simpl; lia]. }
  assert (Hv : violates IndexCheck this modelMetadata queryFields = false).
  { unfold violates.
    destruct (decide (queryFields = [])) as [-> | Hfields].
    { unfold nothingToCover. simpl. by rewrite orb_true_r. }
    destruct (decide (ModelMetadata.indices modelMetadata = [])) as [Hnil | Hindices].
    { unfold nothingToCover. by rewrite Hnil. }
    by rewrite Hcovered, andb_false_r. }
  split; [exact Hcovered |]. split; [exact Hv |].
  change (run (check IndexCheck env modelMetadata queryConditions queryFields queryOptions)
            this = (tt, this, [])).
  by rewrite check_run, Hv.
Qed.

Lemma checkIndex_off_without_positive_minCoverage_witness :
  let this :=
    setIndexCheckHandler {| PartialIndexCheckHandler.minCoverage := Some (S754_zero true);
                            PartialIndexCheckHandler.warnAction := None;
                            PartialIndexCheckHandler.throwMessage := None |} (new None) in
  run (checkIndex ∅ sampleMetadata sampleConditions ["priority"; "active"] Undefined) this
  = (tt, this, []).
Proof.
  intros this.
  assert (Hbound : (Z.of_nat (length ["priority"; "active"]) < 2 ^ 53)%Z)
    by (vm_compute; reflexivity).
  exact (proj2 (proj2 (checkIndex_off_without_positive_minCoverage ∅ sampleMetadata
                         sampleConditions ["priority"; "active"] Undefined this
                         eq_refl Hbound))).
Defined.

Lemma meetsCoverage_nothing_covered totalFieldCount minCoverage :
  0 < totalFieldCount → (Z.of_nat totalFieldCount < 2 ^ 53)%Z →
  isPositive minCoverage = true →
  meetsCoverage 0 totalFieldCount minCoverage = false.
Proof.
  intros Hpos Hbound Hmin. unfold meetsCoverage.
  destruct (of_nat_finite totalFieldCount Hpos Hbound) as (m & e & ->).
  by destruct minCoverage as [[] | [] | | [] m' e'].
Qed.

Lemma coveredFields_head s index :
  (∀ f, head index = Some f → split_head f "." ∉ s) → coveredFields s index 0 = 0.
Proof.
  intros H. destruct index as [| f index]; [done |]. simpl.
  by rewrite (proj2 (set_has_false s _) (H f eq_refl)).
Qed.

(** X10: under a positive minimum coverage, a query that constrains the
    first field of no index is not covered, however many fields of the
    indexes it constrains further on: with the metadata of the cache, a query
    that leaves out [_id] and the first field of every declared index is a
    violation of the index check. *)
Theorem isCoveredByIndex_needs_an_index_prefix
    (queryFields : list string) (indices : list (list string)) (minCoverage : number) :
  queryFields ≠ [] →
  (Z.of_nat (length queryFields) < 2 ^ 53)%Z →
  isPositive minCoverage = true →
  (∀ index f, index ∈ indices → head index = Some f → split_head f "." ∉ queryFields) →
  isCoveredByIndex queryFields indices minCoverage = false.
Proof.
  intros Hfields Hbound Hmin Hheads. rewrite isCoveredByIndex_existsb.
  apply not_true_iff_false. rewrite existsb_exists.
  intros (index & Hin%list_elem_of_In & Hmeets).
  rewrite coveredFields_head in Hmeets.
  - rewrite meetsCoverage_nothing_covered in Hmeets; [done | | done | done].
    destruct queryFields; [done | simpl; lia].
  - intros f Hf. rewrite elem_of_set_of_array. by apply (Hheads index).
Qed.

Lemma isCoveredByIndex_needs_an_index_prefix_witness :
  isCoveredByIndex ["b"; "c"] [["a"; "b"; "c"]; ["_id"]] (literal 1 (-2)) = false.
Proof.
  apply isCoveredByIndex_needs_an_index_prefix.
  - done.
  - vm_compute. reflexivity.
  - reflexivity.
  - intros index f Hin Hhead.
    repeat (apply elem_of_cons in Hin as [-> | Hin]); try (by apply elem_of_nil in Hin);
      injection Hhead as <-; apply (bool_decide_unpack _); vm_compute; exact I.
Defined.

(** ** The pre hook, case by case *)

(** The three ways the hook runs: a single [next()] on conditions that are
    falsy or mention no field, a [TypeError] where the extractor raises one,
    and the two checks followed by [next()] otherwise. *)
Lemma checkQueryFn_cases env query this :
  (truthy (Query._conditions query) = false
   ∨ getRootQueryFields (Query._conditions query) = Some []) ∧
    run (checkQueryFn env query) this = (tt, this, [NextCalled None])
  ∨ (truthy (Query._conditions query) = true
     ∧ getRootQueryFields (Query._conditions query) = None) ∧
    run (checkQueryFn env query) this = (tt, this, [TypeErrorThrown])
  ∨ ∃ queryFields,
      (truthy (Query._conditions query) = true
       ∧ getRootQueryFields (Query._conditions query) = Some queryFields
       ∧ queryFields ≠ []) ∧
      let metadata := result (getMetadata (Query.model query)) this in
      let this1 := exec (getMetadata (Query.model query)) this in
      let fieldCall :=
        check FieldCheck env metadata (Query._conditions query) queryFields
          (Query.options query) in
      let indexCall :=
        check IndexCheck env metadata (Query._conditions query) queryFields
          (Query.options query) in
      run (checkQueryFn env query) this
      = (tt, exec indexCall (exec fieldCall this1),
         events fieldCall this1 ++ events indexCall (exec fieldCall this1)
           ++ [NextCalled None]).
Proof.
  destruct (truthy (Query._conditions query)) eqn:Htruthy.
  2: { left. split; [by left |]. unfold checkQueryFn. by rewrite Htruthy. }
  destruct (getRootQueryFields (Query._conditions query)) as [queryFields |] eqn:Hfields.
  2: { right. left. split; [done |]. unfold checkQueryFn. by rewrite Htruthy, Hfields. }
  destruct (decide (queryFields = [])) as [-> | Hne].
  { left. split; [by right |]. unfold checkQueryFn. by rewrite Htruthy, Hfields. }
  right. right. exists queryFields. split; [done |].
  by apply checkQueryFn_run.
Qed.

(** The hook leaves the options as they are. *)
Lemma checkQueryFn_options env query this :
  options (exec (checkQueryFn env query) this) = options this.
Proof.
  unfold exec.
  destruct (checkQueryFn_cases env query this)
    as [[_ ->] | [[_ ->] | (queryFields & _ & Hrun)]]; [done | done |].
  cbv zeta in Hrun. rewrite Hrun. cbn [fst snd].
  rewrite (proj1 (check_frame _ _ _ _ _ _ _)), (proj1 (check_frame _ _ _ _ _ _ _)).
  apply getMetadata_frame.
Qed.

(** ** One check, one effect *)

(** X11: a run of either check makes at most one call, a notification or a
    failure and never both.  It leaves the instance as it was unless it
    notifies; then the digest of [queryFields] was not in the throttle set of
    the check and is added to it, and nothing else changes. *)
Theorem check_single_effect (c : Check) (env : Ambient) (modelMetadata : ModelMetadata.t)
    (queryConditions : Value) (queryFields : list string) (queryOptions : Value) (this : t) :
  let call := check c env modelMetadata queryConditions queryFields queryOptions in
  (length (events call this) ≤ 1)%nat
  ∧ (notifications (events call this) + length (failures (events call this)) ≤ 1)%nat
  ∧ (notifications (events call this) = 0 → exec call this = this)
  ∧ (notifications (events call this) ≠ 0 →
     (throttleDigest queryFields ∉ warned c this)
     ∧ exec call this = addWarned c (throttleDigest queryFields) this).
Proof.
  intros call. subst call. unfold events, exec. rewrite check_run.
  destruct (violates _ _ _ _); [| by repeat split; simpl; try lia].
  destruct (guarded (shouldThrow env this) _); [by repeat split; simpl; try lia |].
  unfold warnBranch. destruct (guarded (shouldWarn env this) _);
    [| by repeat split; simpl; try lia].
  destruct (bool_decide _) eqn:Hseen; [by repeat split; simpl; try lia |].
  apply bool_decide_eq_false in Hseen. simpl. repeat split; try lia; try done.
Qed.

(** X12: a violation is ignored in silence when neither action is called
    for: with [shouldWarn()] and [shouldThrow()] both false, either check
    returns without a call and without a change, whatever handlers are
    configured. *)
Theorem check_silent (c : Check) (env : Ambient) (modelMetadata : ModelMetadata.t)
    (queryConditions : Value) (queryFields : list string) (queryOptions : Value) (this : t) :
  shouldWarn env this = false →
  shouldThrow env this = false →
  run (check c env modelMetadata queryConditions queryFields queryOptions) this
  = (tt, this, []).
Proof.
  intros Hwarn Hthrow. rewrite check_run. destruct (violates _ _ _ _); [| reflexivity].
  unfold warnBranch. by rewrite Hthrow, Hwarn.
Qed.

Lemma check_silent_witness :
  let this := setWarnCondition (Constant false) (new None) in
  violates FieldCheck this sampleMetadata ["name"; "uncoveredField"] = true
  ∧ run (check FieldCheck ∅ sampleMetadata sampleConditions ["name"; "uncoveredField"]
           Undefined) this
    = (tt, this, []).
Proof.
  split; [vm_compute; reflexivity |].
  exact (check_silent FieldCheck ∅ sampleMetadata sampleConditions
           ["name"; "uncoveredField"] Undefined
           (setWarnCondition (Constant false) (new None)) eq_refl eq_refl).
Defined.

(** ** Configuration *)




Lemma apply_warnAction c this op :
  is_Some (warnActionOf c this) → is_Some (warnActionOf c (apply this op)).
Proof.
  intros H. destruct op as [w | w | h | h | | | env q]; try (by destruct c).
  - destruct c; unfold warnActionOf in *; simpl; [| done].
    destruct (FieldCheckHandler.warnAction h); simpl; eauto.
  - destruct c; unfold warnActionOf in *; simpl; [done |].
    destruct (PartialIndexCheckHandler.warnAction h); simpl; eauto.
  - simpl. unfold warnActionOf in *. by rewrite checkQueryFn_options.
Qed.

Lemma new_warnAction options c : is_Some (warnActionOf c (new options)).
Proof.
  destruct options as [[w th [[wf tf] |] [[m wi ti] |]] |], c; unfold warnActionOf; simpl;
    try destruct wf; try destruct wi; simpl; eauto.
Qed.

(** X14: every instance has a notify callback for either check.  The
    defaults provide one, the constructor and the setters replace it but
    cannot remove it; so on every instance reached from [new
    SafeQuery(options)], a violating query whose digest is not recorded is
    notified whenever [shouldWarn()] holds and [shouldThrow()] does not. *)
Theorem warnAction_always_configured
    (options : option SafeQueryOptions.t) (ops : list Op) (c : Check) :
  is_Some (warnActionOf c (after options ops))
  ∧ ∀ env modelMetadata queryConditions queryFields queryOptions,
      violates c (after options ops) modelMetadata queryFields = true →
      shouldWarn env (after options ops) = true →
      shouldThrow env (after options ops) = false →
      throttleDigest queryFields ∉ warned c (after options ops) →
      notifications
        (events (check c env modelMetadata queryConditions queryFields queryOptions)
           (after options ops)) = 1.
Proof.
  assert (Hsome : is_Some (warnActionOf c (after options ops))).
  { unfold after. induction ops as [| op ops IH] using rev_ind; [apply new_warnAction |].
    rewrite fold_left_app. simpl. by apply apply_warnAction. }
  split; [exact Hsome |].
  intros env md qc qf qo Hv Hwarn Hthrow Hnew. destruct Hsome as [warnAction Haction].
  unfold events. rewrite (check_notifies c env md qc qf qo _ warnAction); try done.
  unfold guarded. by rewrite Hthrow.
Qed.

(** The setters read and write the options only. *)
Lemma apply_setter_options this1 this2 op :
  is_setter op = true →
  options this1 = options this2 →
  options (apply this1 op) = options (apply this2 op).
Proof.
  intros Hop Hopt. destruct op; try discriminate; simpl;
    unfold setWarnCondition, setThrowCondition, setFieldCheckHandler, setIndexCheckHandler;
    simpl; by rewrite Hopt.
Qed.

Lemma apply_other_options this op : is_setter op = false → options (apply this op) = options this.
Proof.
  intros Hop. destruct op; try discriminate; simpl; [done | done |].
  apply checkQueryFn_options.
Qed.

Lemma apply_setter_frame this op :
  is_setter op = true →
  modelMetadataMap (apply this op) = modelMetadataMap this
  ∧ warnedFieldQueries (apply this op) = warnedFieldQueries this
  ∧ warnedIndexQueries (apply this op) = warnedIndexQueries this.
Proof. intros Hop. by destruct op. Qed.

(** X15: configuration and query traffic do not interfere.  The options of
    an instance are those its setter calls produce, whatever queries were run
    and throttle sets cleared in between; and a setter changes neither the
    metadata cache nor the throttle sets. *)
Theorem options_depend_on_setters_only
    (options : option SafeQueryOptions.t) (ops : list Op) :
  SafeQuery.options (after options ops)
  = SafeQuery.options (after options (List.filter is_setter ops))
  ∧ ∀ op, is_setter op = true →
      modelMetadataMap (apply (after options ops) op) = modelMetadataMap (after options ops)
      ∧ warnedFieldQueries (apply (after options ops) op)
        = warnedFieldQueries (after options ops)
      ∧ warnedIndexQueries (apply (after options ops) op)
        = warnedIndexQueries (after options ops).
Proof.
  split; [| intros op; apply apply_setter_frame].
  unfold after. induction ops as [| op ops IH] using rev_ind; [reflexivity |].
  rewrite List.filter_app, !fold_left_app. simpl.
  destruct (is_setter op) eqn:Hop; simpl.
  - by apply apply_setter_options.
  - by rewrite apply_other_options.
Qed.

(** ** Queries without fields *)

(** X16: on conditions that are falsy, or from which no field is extracted
    (an empty filter, a filter made of ignored and operator keys only), the
    hook calls [next()] and does nothing else: no check runs, nothing is
    cached, the instance is as it was. *)
Theorem checkQueryFn_nothing_to_check (env : Ambient) (query : Query.t) (this : t) :
  truthy (Query._conditions query) = false
  ∨ getRootQueryFields (Query._conditions query) = Some []
  ∨ (is_filter (Query._conditions query) = true
     ∧ fieldOccurrences (Query._conditions query) = []) →
  run (checkQueryFn env query) this = (tt, this, [NextCalled None]).
Proof.
  intros H.
  assert (H' : truthy (Query._conditions query) = false
               ∨ getRootQueryFields (Query._conditions query) = Some []).
  { destruct H as [H | [H | [Hfilter Hocc]]]; [by left | by right |].
    right. by rewrite (is_filter_first_occurrence _ Hfilter), Hocc. }
  unfold checkQueryFn. destruct H' as [-> | Hnone]; [done |].
  destruct (truthy _); [| done]. by rewrite Hnone.
Qed.

Lemma checkQueryFn_nothing_to_check_witness :
  let query := {| Query._conditions :=
                    Object [("$text", Object [("$search", Str "bee")]);
                            ("_bsontype", Str "ObjectID")];
                  Query.model := sampleModel;
                  Query.options := Undefined |} in
  (is_filter (Query._conditions query) = true
   ∧ fieldOccurrences (Query._conditions query) = [])
  ∧ run (checkQueryFn ∅ query) throwingInstance = (tt, throwingInstance, [NextCalled None]).
Proof.
  intros query.
  assert (H : is_filter (Query._conditions query) = true
              ∧ fieldOccurrences (Query._conditions query) = []) by (split; reflexivity).
  split; [exact H |].
  exact (checkQueryFn_nothing_to_check ∅ query throwingInstance (or_intror (or_intror H))).
Defined.

(** ** How often the hook calls [next] *)





(** ** The metadata cache under queries *)

Lemma getMetadata_exec model this :
  (∃ existingMetadata,
     modelMetadataMap this !! Model.modelName model = Some existingMetadata
     ∧ result (getMetadata model) this = existingMetadata
     ∧ exec (getMetadata model) this = this)
  ∨ (modelMetadataMap this !! Model.modelName model = None
     ∧ result (getMetadata model) this = newMetadata model
     ∧ exec (getMetadata model) this
       = withMetadata (Model.modelName model) (newMetadata model) this).
Proof.
  unfold exec, result.
  destruct (modelMetadataMap this !! Model.modelName model) as [existingMetadata |] eqn:Hlook.
  - left. exists existingMetadata. by rewrite (getMetadata_hit _ _ _ Hlook).
  - right. by rewrite (getMetadata_miss _ _ Hlook).
Qed.

(** The cache after the hook: that of [getMetadata] when the query has
    fields, the same cache otherwise. *)
Lemma checkQueryFn_modelMetadataMap env query this :
  modelMetadataMap (exec (checkQueryFn env query) this) = modelMetadataMap this
  ∧ (truthy (Query._conditions query) = false
     ∨ getRootQueryFields (Query._conditions query) = Some []
     ∨ getRootQueryFields (Query._conditions query) = None)
  ∨ modelMetadataMap (exec (checkQueryFn env query) this)
    = modelMetadataMap (exec (getMetadata (Query.model query)) this)
    ∧ ∃ queryFields,
        truthy (Query._conditions query) = true
        ∧ getRootQueryFields (Query._conditions query) = Some queryFields
        ∧ queryFields ≠ [].
Proof.
  unfold exec at 1 2.
  destruct (checkQueryFn_cases env query this)
    as [[Hcase ->] | [[[_ Hnone] ->] | (queryFields & Hcase & Hrun)]].
  - left. split; [done |]. destruct Hcase; auto.
  - left. auto.
  - right. cbv zeta in Hrun. rewrite Hrun. cbn [fst snd]. split; [| by exists queryFields].
    by rewrite (proj2 (check_frame _ _ _ _ _ _ _)), (proj2 (check_frame _ _ _ _ _ _ _)).
Qed.

Lemma withMetadata_lookup name metadata this key :
  modelMetadataMap (withMetadata name metadata this) !! key
  = if decide (name = key) then Some metadata else modelMetadataMap this !! key.
Proof. unfold withMetadata. simpl. apply lookup_insert. Qed.

Lemma checkQueryFn_cache_preserved env query this key metadata :
  modelMetadataMap this !! key = Some metadata →
  modelMetadataMap (exec (checkQueryFn env query) this) !! key = Some metadata.
Proof.
  intros Hkey.
  destruct (checkQueryFn_modelMetadataMap env query this) as [[-> _] | [-> _]]; [done |].
  destruct (getMetadata_exec (Query.model query) this)
    as [(existing & _ & _ & ->) | (Hlook & _ & ->)]; [done |].
  rewrite withMetadata_lookup. case_decide; [congruence | done].
Qed.

(** X18: the hook touches the cache only for the model of a query that has
    fields.  Then the model name is in the cache afterwards, with the entry
    [getMetadata] returned; a name that was absent gets the entry computed
    from the model.  In every case the entries that were there stay as they
    were, and no other name is added. *)
Theorem checkQueryFn_cache (env : Ambient) (query : Query.t) (this : t) :
  let name := Model.modelName (Query.model query) in
  let this' := exec (checkQueryFn env query) this in
  (∀ queryFields,
     truthy (Query._conditions query) = true →
     getRootQueryFields (Query._conditions query) = Some queryFields →
     queryFields ≠ [] →
     modelMetadataMap this' !! name = Some (result (getMetadata (Query.model query)) this)
     ∧ (modelMetadataMap this !! name = None →
        modelMetadataMap this'
        = <[name := newMetadata (Query.model query)]> (modelMetadataMap this)))
  ∧ (truthy (Query._conditions query) = false
     ∨ getRootQueryFields (Query._conditions query) = Some []
     ∨ getRootQueryFields (Query._conditions query) = None →
     modelMetadataMap this' = modelMetadataMap this)
  ∧ (∀ key metadata,
       modelMetadataMap this !! key = Some metadata →
       modelMetadataMap this' !! key = Some metadata)
  ∧ (∀ key, key ≠ name → modelMetadataMap this' !! key = modelMetadataMap this !! key).
Proof.
  intros name this'. subst name this'.
  split; [| split; [| split; [intros; by apply checkQueryFn_cache_preserved |]]].
  - intros queryFields Htruthy Hfields Hne.
    destruct (checkQueryFn_modelMetadataMap env query this)
      as [[_ [H | [H | H]]] | [-> _]]; [congruence .. |].
    destruct (getMetadata_exec (Query.model query) this)
      as [(existing & Hlook & -> & ->) | (Hlook & -> & ->)].
    + split; [done | congruence].
    + rewrite withMetadata_lookup. case_decide; [| done]. done.
  - intros Hcase.
    destruct (checkQueryFn_modelMetadataMap env query this)
      as [[-> _] | [_ (queryFields & Htruthy & Hfields & Hne)]]; [done |].
    destruct Hcase as [H | [H | H]]; congruence.
  - intros key Hkey.
    destruct (checkQueryFn_modelMetadataMap env query this) as [[-> _] | [-> _]]; [done |].
    destruct (getMetadata_exec (Query.model query) this)
      as [(existing & _ & _ & ->) | (Hlook & _ & ->)]; [done |].
    rewrite withMetadata_lookup. case_decide; [congruence | done].
Qed.

Lemma apply_cache_preserved this op key metadata :
  modelMetadataMap this !! key = Some metadata →
  modelMetadataMap (apply this op) !! key = Some metadata.
Proof.
  intros Hkey. destruct op as [| | | | | | env q]; try done. simpl.
  by apply checkQueryFn_cache_preserved.
Qed.

Lemma apply_cacheOfModels this op : cacheOfModels this → cacheOfModels (apply this op).
Proof.
  intros Hinv. destruct op as [| | | | | | env q]; try done. simpl. intros name metadata.
  destruct (checkQueryFn_modelMetadataMap env q this) as [[-> _] | [-> _]];
    [apply Hinv |].
  destruct (getMetadata_exec (Query.model q) this)
    as [(existing & _ & _ & ->) | (Hlook & _ & ->)]; [apply Hinv |].
  rewrite withMetadata_lookup. case_decide; [| apply Hinv].
  intros [= <-]. by exists (Query.model q).
Qed.

(** X19: the cache is written once per model name.  On an instance reached
    from [new SafeQuery(options)], an entry is stored under the name of the
    model it was computed from and holds what [getMetadata] computes from
    that model; whatever operations follow, it stays in the cache as it
    is. *)
Theorem cache_written_once (options : option SafeQueryOptions.t) (ops ops' : list Op)
    (name : string) (metadata : ModelMetadata.t) :
  modelMetadataMap (after options ops) !! name = Some metadata →
  modelMetadataMap (after options (ops ++ ops')) !! name = Some metadata
  ∧ ModelMetadata.modelName metadata = name
  ∧ ∃ model, Model.modelName model = name ∧ metadata = newMetadata model.
Proof.
  intros Hname. split.
  - unfold after. rewrite fold_left_app. fold (after options ops).
    induction ops' as [| op ops' IH] using rev_ind; [done |].
    rewrite fold_left_app. simpl. by apply apply_cache_preserved.
  - assert (Hinv : cacheOfModels (after options ops)).
    { clear Hname. unfold after. induction ops as [| op ops IH] using rev_ind.
      - intros k md. simpl. by rewrite lookup_empty.
      - rewrite fold_left_app. simpl. by apply apply_cacheOfModels. }
    destruct (Hinv _ _ Hname) as (model & <- & ->). split; [done | by exists model].
Qed.

Lemma cache_written_once_witness :
  let query := {| Query._conditions := sampleConditions;
                  Query.model := sampleModel;
                  Query.options := Undefined |} in
  modelMetadataMap (after None [RunQuery ∅ query]) !! "project" = Some sampleMetadata
  ∧ modelMetadataMap
      (after None ([RunQuery ∅ query] ++ [ClearWarnedFieldQueries; RunQuery ∅ query]))
      !! "project" = Some sampleMetadata.
Proof.
  intros query.
  assert (H : modelMetadataMap (after None [RunQuery ∅ query]) !! "project"
              = Some sampleMetadata) by (vm_compute; reflexivity).
  split; [exact H |].
  exact (proj1 (cache_written_once None [RunQuery ∅ query]
                  [ClearWarnedFieldQueries; RunQuery ∅ query] "project" sampleMetadata H)).
Defined.

(** ** The throttle sets under queries *)

Lemma length_throttleDigest queryFields : String.length (throttleDigest queryFields) = 5%nat.
Proof.
  unfold throttleDigest. rewrite (proj1 (slice_last_suffix 5 _)).
  unfold hash. by rewrite length_sha1_base64.
Qed.

Lemma warned_addWarned_cases c c' digest this d :
  d ∈ warned c (addWarned c' digest this) ↔ d ∈ warned c this ∨ (c = c' ∧ d = digest).
Proof.
  destruct c, c'; simpl; rewrite ?elem_of_union, ?elem_of_singleton; split;
    intros; intuition congruence.
Qed.

Lemma check_exec_cases c env md qc qf qo this :
  exec (check c env md qc qf qo) this = this
  ∨ exec (check c env md qc qf qo) this = addWarned c (throttleDigest qf) this.
Proof.
  unfold exec. rewrite check_run.
  destruct (violates _ _ _ _); [| by left].
  destruct (guarded (shouldThrow env this) _); [by left |].
  unfold warnBranch. destruct (guarded (shouldWarn env this) _); [| by left].
  destruct (bool_decide _); [by left | by right].
Qed.

Lemma check_warned c c' env md qc qf qo this d :
  (d ∈ warned c this → d ∈ warned c (exec (check c' env md qc qf qo) this))
  ∧ (d ∈ warned c (exec (check c' env md qc qf qo) this) →
     d ∈ warned c this ∨ d = throttleDigest qf).
Proof.
  destruct (check_exec_cases c' env md qc qf qo this) as [-> | ->]; [by auto |].
  rewrite warned_addWarned_cases. split; [by left | intros [? | [_ ?]]; auto].
Qed.

Lemma getMetadata_warned c model this :
  warned c (exec (getMetadata model) this) = warned c this.
Proof.
  destruct (getMetadata_exec model this) as [(? & _ & _ & ->) | (_ & _ & ->)];
    [done | by destruct c].
Qed.

Lemma checkQueryFn_warned env q this c d :
  (d ∈ warned c this → d ∈ warned c (exec (checkQueryFn env q) this))
  ∧ (d ∈ warned c (exec (checkQueryFn env q) this) →
     d ∈ warned c this
     ∨ ∃ queryFields,
         getRootQueryFields (Query._conditions q) = Some queryFields
         ∧ d = throttleDigest queryFields).
Proof.
  unfold exec.
  destruct (checkQueryFn_cases env q this)
    as [[_ ->] | [[_ ->] | (queryFields & (_ & Hfields & _) & Hrun)]]; [by auto .. |].
  cbv zeta in Hrun. rewrite Hrun. cbn [fst snd].
  set (metadata := result (getMetadata (Query.model q)) this).
  set (this1 := exec (getMetadata (Query.model q)) this).
  set (this2 := exec (check FieldCheck env metadata (Query._conditions q) queryFields
                        (Query.options q)) this1).
  pose proof (check_warned c IndexCheck env metadata (Query._conditions q) queryFields
                (Query.options q) this2 d) as [Hin2 Hout2].
  pose proof (check_warned c FieldCheck env metadata (Query._conditions q) queryFields
                (Query.options q) this1 d) as [Hin1 Hout1].
  fold this2 in Hin1, Hout1. unfold this1 in Hin1, Hout1.
  rewrite getMetadata_warned in Hin1, Hout1.
  split; [auto |]. intros [H | ->]%Hout2; [| by right; exists queryFields].
  apply Hout1 in H as [H | ->]; [by left | by right; exists queryFields].
Qed.

Lemma apply_digestsWellFormed this op : digestsWellFormed this → digestsWellFormed (apply this op).
Proof.
  intros Hinv. destruct op as [| | | | | | env q]; try done.
  - intros [] d; simpl; [by intros []%elem_of_empty | apply (Hinv IndexCheck)].
  - intros [] d; simpl; [apply (Hinv FieldCheck) | by intros []%elem_of_empty].
  - intros c d [H | (queryFields & _ & ->)]%checkQueryFn_warned; [by apply (Hinv c) |].
    split; [apply length_throttleDigest | by exists queryFields].
Qed.

(** X20: the throttle sets hold digests only.  On an instance reached from
    [new SafeQuery(options)], every member of either set is the 5-character
    digest of some field list.  A query never removes a digest, and the only
    digest it can add is that of the fields extracted from its
    conditions. *)
Theorem throttle_sets_hold_digests (options : option SafeQueryOptions.t) (ops : list Op) :
  digestsWellFormed (after options ops)
  ∧ ∀ env query c digest,
      let this := after options ops in
      (digest ∈ warned c this → digest ∈ warned c (exec (checkQueryFn env query) this))
      ∧ (digest ∈ warned c (exec (checkQueryFn env query) this) →
         digest ∈ warned c this
         ∨ ∃ queryFields,
             getRootQueryFields (Query._conditions query) = Some queryFields
             ∧ digest = throttleDigest queryFields).
Proof.
  split; [| intros env q c d; apply checkQueryFn_warned].
  unfold after. induction ops as [| op ops IH] using rev_ind.
  - intros [] d; simpl; by intros []%elem_of_empty.
  - rewrite fold_left_app. simpl. by apply apply_digestsWellFormed.
Qed.

(** ** A failure, end to end *)

(** X21: a query that mentions a field the model does not declare is
    failed when throwing is on and the field check has a message: the first
    thing the hook does is to signal [InvalidField] with the message made
    from the undeclared fields, the field check notifies nothing and records
    no digest, and the hook still ends with [next()]. *)
Theorem checkQueryFn_signals_InvalidField (env : Ambient) (query : Query.t) (this : t)
    (queryFields : list string) (field : string) (throwMessage : ThrowMessage) :
  let metadata := result (getMetadata (Query.model query)) this in
  truthy (Query._conditions query) = true →
  getRootQueryFields (Query._conditions query) = Some queryFields →
  field ∈ queryFields →
  field ∉ ModelMetadata.fields metadata →
  shouldThrow env this = true →
  throwMessageOf FieldCheck this = Some throwMessage →
  let evs := events (checkQueryFn env query) this in
  let failed :=
    violatingQuery FieldCheck metadata (Query._conditions query) queryFields
      (Query.options query) in
  head evs = Some (NextCalled (Some (InvalidField (throwMessage failed))))
  ∧ field ∈ ViolatingQuery.violatingFields failed
  ∧ last evs = Some (NextCalled None)
  ∧ (∀ q logged, WarnActionCalled FieldCheck q logged ∉ evs)
  ∧ warnedFieldQueries (exec (checkQueryFn env query) this) = warnedFieldQueries this.
Proof.
  intros metadata Htruthy Hfields Hin Hnot Hthrow Hmsg evs failed.
  assert (Hne : queryFields ≠ []) by (intros ->; by apply elem_of_nil in Hin).
  pose proof (checkQueryFn_run env query this queryFields Htruthy Hfields Hne) as Hrun.
  cbv zeta in Hrun. fold metadata in Hrun.
  set (this1 := exec (getMetadata (Query.model query)) this) in *.
  assert (Hviolating : field ∈ getNonExistingFields queryFields (ModelMetadata.fields metadata))
    by by apply elem_of_getNonExistingFields.
  assert (Hfield : run (check FieldCheck env metadata (Query._conditions query) queryFields
                          (Query.options query)) this1
                   = (tt, this1, [NextCalled (Some (InvalidField (throwMessage failed)))])).
  { rewrite check_run.
    assert (Hv : violates FieldCheck this1 metadata queryFields = true).
    { unfold violates. destruct (getNonExistingFields _ _); [by apply elem_of_nil in Hviolating
                                                            | done]. }
    assert (Hopt : options this1 = options this) by apply getMetadata_frame.
    rewrite Hv. unfold shouldThrow, throwMessageOf in *. rewrite Hopt, Hthrow, Hmsg. done. }
  assert (Hev1 : events (check FieldCheck env metadata (Query._conditions query) queryFields
                          (Query.options query)) this1
                 = [NextCalled (Some (InvalidField (throwMessage failed)))])
    by (unfold events; by rewrite Hfield).
  assert (Hex1 : exec (check FieldCheck env metadata (Query._conditions query) queryFields
                         (Query.options query)) this1 = this1)
    by (unfold exec; by rewrite Hfield).
  assert (Hevs : evs = NextCalled (Some (InvalidField (throwMessage failed)))
                       :: events (check IndexCheck env metadata (Query._conditions query)
                                    queryFields (Query.options query)) this1
                       ++ [NextCalled None]).
  { subst evs. unfold events at 1. rewrite Hrun. cbn [snd]. by rewrite Hev1, Hex1. }
  split; [by rewrite Hevs |]. split; [exact Hviolating |]. split.
  { rewrite Hevs, app_comm_cons, last_snoc. done. }
  split.
  - intros q logged. rewrite Hevs, elem_of_cons, elem_of_app, list_elem_of_singleton.
    intros [[=] | [H | [=]]]. revert H. unfold events. rewrite check_run.
    destruct (violates _ _ _ _); [| by intros ?%elem_of_nil].
    destruct (guarded (shouldThrow env this1) _);
      [by intros [=]%list_elem_of_singleton |].
    unfold warnBranch. destruct (guarded (shouldWarn env this1) _);
      [| by intros ?%elem_of_nil].
    destruct (bool_decide _); [by intros ?%elem_of_nil |].
    by intros [=]%list_elem_of_singleton.
  - unfold exec at 1. rewrite Hrun. cbn [fst snd]. rewrite Hex1.
    change (warnedFieldQueries ?x) with (warned FieldCheck x).
    rewrite check_other_warned by done. apply getMetadata_warned.
Qed.

Lemma checkQueryFn_signals_InvalidField_witness :
  let query := {| Query._conditions := sampleConditions;
                  Query.model := sampleModel;
                  Query.options := Undefined |} in
  "uncoveredField" ∈ ["name"; "uncoveredField"]
  ∧ head (events (checkQueryFn ∅ query) throwingInstance)
    = Some (NextCalled (Some (InvalidField "invalid field"))).
Proof.
  intros query.
  assert (Hin : "uncoveredField" ∈ ["name"; "uncoveredField"])
    by (apply list_elem_of_further, list_elem_of_here).
  assert (Hnot : "uncoveredField"
                 ∉ ModelMetadata.fields
                     (result (getMetadata (Query.model query)) throwingInstance))
    by (vm_compute; intros H; discriminate H).
  split; [exact Hin |].
  exact (proj1 (checkQueryFn_signals_InvalidField ∅ query throwingInstance
                  ["name"; "uncoveredField"] "uncoveredField" (λ _, "invalid field")
                  eq_refl eq_refl Hin Hnot eq_refl eq_refl)).
Defined.

(** ** What the plugin registers *)

